(** * The access-tracked cache of the Day 5 challenge (day5/06_challenge.go)

    A shallow embedding of the [Cache] type and its methods, and the
    properties of the cache that hold of this code.

    Conventions of the embedding:
    - Go's [int] is the 64-bit signed integer of the 64-bit targets; its
      arithmetic wraps around, as the language specification defines it.
    - A Go [map] is a finite map ([gmap]); a [range] loop over it visits
      every entry once, in an order the language leaves open, so whatever
      is computed from such a loop is a relation between the cache and the
      result, not a function.
    - [sort.Slice] and [sort.Strings] belong to the standard library; they
      enter through their documented contract (the slice is permuted into
      an order where no element is less than an earlier one; the sort is
      not stable).
    - [float64] is the IEEE 754 binary64 format of the primitive floats.
    - A method with a pointer receiver takes the cache and gives back the
      updated cache next to its results. *)

From Stdlib Require Import ZArith Lia Uint63 Floats OrderedTypeEx.
From stdpp Require Import base option list gmap strings sorting.

Local Open Scope Z_scope.

(** ** Machine integers *)

Module GoInt.

Definition intSize : Z := 64.
Definition MaxInt : Z := 2 ^ (intSize - 1) - 1.
Definition MinInt : Z := - 2 ^ (intSize - 1).

Definition in_range (z : Z) : Prop := MinInt <= z <= MaxInt.

(** The value of an exact result once it is stored in an [int]. *)
Definition wrap (z : Z) : Z := (z - MinInt) mod 2 ^ intSize + MinInt.

Definition add (x y : Z) : Z := wrap (x + y).

(** [x++] *)
Definition incr (x : Z) : Z := add x 1.

End GoInt.

(** ** Results of calls that may panic *)

Inductive outcome (A : Type) : Type :=
  | Returns (a : A)
  | Panics.
Arguments Returns {A} a.
Arguments Panics {A}.

(** ** The allocator behind [make]

    [make([]T, 0, cap)] panics when [cap] is negative (the length 0 is then
    larger than the capacity) and when the request of [cap] elements is
    more than the runtime allocates; [maxAlloc] is that ceiling in bytes, a
    [uintptr]. *)

Class Runtime : Type := {
  maxAlloc : Z;
  maxAlloc_uintptr : 0 <= maxAlloc < 2 ^ 64
}.

(** A string value is a pointer and a length: two 8-byte words. *)
Definition stringSize : Z := 16.

Definition makeslice_ok `{Runtime} (elemSize cap : Z) : bool :=
  (0 <=? cap) && (elemSize * cap <=? maxAlloc).

(** The allocation ceiling of linux/amd64 (48 address bits). *)
Definition linux_amd64 : Runtime.
Proof. refine {| maxAlloc := 2 ^ 48 |}. lia. Defined.

(** ** Library contracts *)

(** What a [range] loop may see of a map. *)
Definition range_map {V : Type} (m : gmap string V) (seen : list (string * V)) : Prop :=
  seen ≡ₚ map_to_list m.

(** [sort.Slice(x, less)]: [x] is rearranged so that no element is less
    than one before it; elements that compare equal may land in any order. *)
Definition in_order {A : Type} (less : A → A → bool) : relation A :=
  λ a b, less b a = false.

#[global] Instance in_order_dec {A : Type} (less : A → A → bool) (a b : A) :
  Decision (in_order less a b).
Proof. unfold in_order. apply _. Defined.

Definition sort_Slice {A : Type} (less : A → A → bool) (before after : list A) : Prop :=
  before ≡ₚ after ∧ StronglySorted (in_order less) after.

(** [sort.Strings(x)]: increasing order, strings compared byte by byte. *)
Definition sort_Strings : list string → list string → Prop :=
  sort_Slice String.ltb.

(** ** The cache *)

Record Cache : Type := mkCache {
  data : gmap string string;
  accessCount : gmap string Z;
  hits : Z;
  misses : Z
}.

Definition NewCache : Cache :=
  {| data := ∅; accessCount := ∅; hits := 0; misses := 0 |}.

(** [Set] (the name is reserved here, hence the underscore). *)
Definition Set_ (c : Cache) (key value : string) : Cache :=
  let data' := <[key := value]> (data c) in
  match accessCount c !! key with
  | Some _ =>
      {| data := data'; accessCount := accessCount c;
         hits := hits c; misses := misses c |}
  | None =>
      {| data := data'; accessCount := <[key := 0]> (accessCount c);
         hits := hits c; misses := misses c |}
  end.

(** [c.accessCount[key]++] reads the zero value when the key is missing. *)
Definition Get (c : Cache) (key : string) : (string * bool) * Cache :=
  match data c !! key with
  | Some value =>
      ((value, true),
       {| data := data c;
          accessCount :=
            <[key := GoInt.incr (default 0 (accessCount c !! key))]> (accessCount c);
          hits := GoInt.incr (hits c);
          misses := misses c |})
  | None =>
      ((""%string, false),
       {| data := data c; accessCount := accessCount c;
          hits := hits c; misses := GoInt.incr (misses c) |})
  end.

Definition Delete (c : Cache) (key : string) : bool * Cache :=
  match data c !! key with
  | Some _ =>
      (true,
       {| data := delete key (data c);
          accessCount := delete key (accessCount c);
          hits := hits c; misses := misses c |})
  | None => (false, c)
  end.

Definition Size (c : Cache) : Z := Z.of_nat (size (data c)).

(** The loop [for k := range c.data { keys = append(keys, k) }]. *)
Definition append_keys {V : Type} (seen : list (string * V)) : list string :=
  foldl (λ keys kv, keys ++ [kv.1]) [] seen.

Definition Keys `{Runtime} (c : Cache) (r : outcome (list string)) : Prop :=
  ∃ seen sorted,
    range_map (data c) seen ∧
    sort_Strings (append_keys seen) sorted ∧
    r = if makeslice_ok stringSize (Size c) then Returns sorted else Panics.

(** [float64(x)] for an [int] x: the nearest binary64, ties to even. *)
Definition float64_of_int (z : Z) : float :=
  if z =? GoInt.MinInt then (-0x1p63)%float
  else if z <? 0 then PrimFloat.opp (PrimFloat.of_uint63 (Uint63.of_Z (- z)))
  else PrimFloat.of_uint63 (Uint63.of_Z z).

Definition Stats (c : Cache) : Z * Z * float :=
  let total := GoInt.add (hits c) (misses c) in
  if total =? 0 then (hits c, misses c, 0%float)
  else (hits c, misses c,
        (float64_of_int (hits c) / float64_of_int total * 100)%float).

Definition Clear (c : Cache) : Cache :=
  {| data := ∅; accessCount := ∅; hits := 0; misses := 0 |}.

(** ** Ranking *)

Record keyCount : Type := KeyCount { key : string; count : Z }.

(** The loop [for k, count := range c.accessCount { items = append(...) }]. *)
Definition append_items (seen : list (string * Z)) : list keyCount :=
  foldl (λ items kv, items ++ [KeyCount kv.1 kv.2]) [] seen.

(** [items[i].count > items[j].count] *)
Definition less_desc (a b : keyCount) : bool := count b <? count a.

(** [items[i].count < items[j].count] *)
Definition less_asc (a b : keyCount) : bool := count a <? count b.

(** The loop [for i := 0; i < n && i < len(items); i++], entered with the
    items from index [i] on; [i] stays below [len(items)], inside [int]. *)
Fixpoint append_first (n i : Z) (items : list keyCount) (result : list string)
  : list string :=
  match items with
  | [] => result
  | item :: rest =>
      if i <? n then append_first n (i + 1) rest (result ++ [key item])
      else result
  end.

(** [result := make([]string, 0, n)] and the loop that fills it. *)
Definition first_n `{Runtime} (n : Z) (items : list keyCount) : outcome (list string) :=
  if makeslice_ok stringSize n then Returns (append_first n 0 items [])
  else Panics.

Definition MostAccessed `{Runtime} (c : Cache) (n : Z) (r : outcome (list string)) : Prop :=
  ∃ seen sorted,
    range_map (accessCount c) seen ∧
    sort_Slice less_desc (append_items seen) sorted ∧
    r = first_n n sorted.

Definition LeastAccessed `{Runtime} (c : Cache) (n : Z) (r : outcome (list string)) : Prop :=
  ∃ seen sorted,
    range_map (accessCount c) seen ∧
    sort_Slice less_asc (append_items seen) sorted ∧
    r = first_n n sorted.

(** ** Histories *)

Inductive op : Type :=
  | OpSet (key value : string)
  | OpGet (key : string)
  | OpDelete (key : string)
  | OpClear.

Definition step (c : Cache) (o : op) : Cache :=
  match o with
  | OpSet k v => Set_ c k v
  | OpGet k => (Get c k).2
  | OpDelete k => (Delete c k).2
  | OpClear => Clear c
  end.

Definition run (ops : list op) (c : Cache) : Cache := foldl step c ops.

Definition reachable (c : Cache) : Prop := ∃ ops, c = run ops NewCache.

(** How many [Get] calls a history holds after its last [Clear]. *)
Definition gets_since_clear (ops : list op) : Z :=
  foldl (λ n o, match o with
                | OpGet _ => n + 1
                | OpClear => 0
                | _ => n
                end) 0 ops.

(** How many [Get(k)] calls a history holds. *)
Definition gets_of (k : string) (ops : list op) : Z :=
  foldl (λ n o, match o with
                | OpGet k' => if decide (k' = k) then n + 1 else n
                | _ => n
                end) 0 ops.

Definition removes (k : string) (o : op) : bool :=
  match o with
  | OpDelete k' => bool_decide (k' = k)
  | OpClear => true
  | _ => false
  end.

Definition sets (k : string) (o : op) : bool :=
  match o with
  | OpSet k' _ => bool_decide (k' = k)
  | _ => false
  end.

(** The calls of [main] up to its first report. *)
Definition demo : list op :=
  [OpSet "user:1" "Alice"; OpSet "user:2" "Bob"; OpSet "user:3" "Charlie";
   OpSet "config:theme" "dark"; OpSet "config:language" "en"]
  ++ replicate 10 (OpGet "user:1") ++ replicate 5 (OpGet "user:2")
  ++ [OpGet "user:3"; OpGet "config:theme"; OpGet "config:theme";
      OpGet "config:language"; OpGet "nonexistent:1"; OpGet "nonexistent:2"].

(** A sort that meets the contract of [sort.Slice], to run examples with. *)
Definition sort_by {A : Type} (less : A → A → bool) (l : list A) : list A :=
  merge_sort (in_order less) l.

(** ** The invariant of the states a history can reach *)

Record wf (c : Cache) : Prop := {
  wf_dom : ∀ k, is_Some (data c !! k) ↔ is_Some (accessCount c !! k);
  wf_hits : GoInt.in_range (hits c);
  wf_misses : GoInt.in_range (misses c);
  wf_counts : ∀ k n, accessCount c !! k = Some n → GoInt.in_range n
}.

(** The items of a count map, in the map's own order. *)
Definition entries (m : gmap string Z) : list keyCount :=
  (λ kv, KeyCount kv.1 kv.2) <$> map_to_list m.

(** ** What a ranking has to deliver *)

(** [keys] lists, best first, [n] keys of [m] (all of them when [m] has
    fewer), and no key left out is better than a listed one; [best a b]
    reads "the count [a] ranks no later than the count [b]". *)
Record ranking (best : relation Z) (m : gmap string Z) (n : Z) (keys : list string)
  : Prop := {
  ranking_NoDup : NoDup keys;
  ranking_length : length keys = Nat.min (Z.to_nat n) (size m);
  ranking_keys : ∀ k, k ∈ keys → is_Some (m !! k);
  ranking_order : ∀ (i j : nat) ki kj ci cj,
    (i < j)%nat → keys !! i = Some ki → keys !! j = Some kj →
    m !! ki = Some ci → m !! kj = Some cj → best ci cj;
  ranking_cut : ∀ k k' a a',
    k ∈ keys → k' ∉ keys → m !! k = Some a → m !! k' = Some a' → best a a'
}.

(** No two keys share an access count. *)
Definition distinct_counts (m : gmap string Z) : Prop :=
  ∀ k1 k2 a, m !! k1 = Some a → m !! k2 = Some a → k1 = k2.

(** ** Reading a history *)

(** Whether an operation names the key [k], or clears the cache. *)
Definition touches (k : string) (o : op) : bool :=
  match o with
  | OpSet k' _ | OpGet k' | OpDelete k' => bool_decide (k' = k)
  | OpClear => true
  end.

Definition is_Get (o : op) : bool :=
  match o with OpGet _ => true | _ => false end.

Definition is_Delete (o : op) : bool :=
  match o with OpDelete _ => true | _ => false end.

(** Whether a history holds a [Delete] after its last [Clear]. *)
Definition deleted_since_clear (ops : list op) : bool :=
  foldl (λ b o, match o with
                | OpDelete _ => true
                | OpClear => false
                | _ => b
                end) false ops.

(** The sum of the access counts of a count map. *)
Definition total_accesses (m : gmap string Z) : Z :=
  map_fold (λ _ a acc, a + acc) 0 m.

(** A history replayed while counting, from the answers of [Get] alone, the
    calls that found their key and those that did not since the last
    [Clear]: the state, the number found, the number not found. *)
Definition tally_step (s : Cache * Z * Z) (o : op) : Cache * Z * Z :=
  let '(c, found, lost) := s in
  match o with
  | OpGet k =>
      if (Get c k).1.2 then ((Get c k).2, found + 1, lost)
      else ((Get c k).2, found, lost + 1)
  | OpClear => (Clear c, 0, 0)
  | _ => (step c o, found, lost)
  end.

Definition tally (ops : list op) : Cache * Z * Z :=
  foldl tally_step (NewCache, 0, 0) ops.

(** * Properties *)

(** ** Wrap-around *)

Module GoIntFacts.
Import GoInt.

Lemma MaxInt_eq : MaxInt = 9223372036854775807.
Proof. reflexivity. Qed.

Lemma MinInt_eq : MinInt = -9223372036854775808.
Proof. reflexivity. Qed.

Lemma wrap_eq z :
  wrap z = (z + 9223372036854775808) mod 18446744073709551616 - 9223372036854775808.
Proof.
  unfold wrap. rewrite MinInt_eq. change (2 ^ intSize) with 18446744073709551616.
  replace (z - -9223372036854775808) with (z + 9223372036854775808) by lia. lia.
Qed.

Lemma wrap_in_range z : in_range (wrap z).
Proof.
  unfold in_range. rewrite wrap_eq, MaxInt_eq, MinInt_eq.
  pose proof (Z.mod_pos_bound (z + 9223372036854775808) 18446744073709551616). lia.
Qed.

Lemma wrap_id z : in_range z → wrap z = z.
Proof.
  unfold in_range. rewrite wrap_eq, MaxInt_eq, MinInt_eq. intros Hz.
  rewrite Z.mod_small; lia.
Qed.

Lemma wrap_add_l x y : wrap (wrap x + y) = wrap (x + y).
Proof.
  rewrite !wrap_eq.
  replace ((x + 9223372036854775808) mod 18446744073709551616 - 9223372036854775808
           + y + 9223372036854775808)
    with ((x + 9223372036854775808) mod 18446744073709551616 + y) by lia.
  rewrite Zplus_mod_idemp_l. do 2 f_equal. lia.
Qed.

Lemma incr_wrap x : incr (wrap x) = wrap (x + 1).
Proof. unfold incr, add. apply wrap_add_l. Qed.

Lemma incr_small x : MinInt <= x < MaxInt → incr x = x + 1.
Proof.
  intros Hx. unfold incr, add. apply wrap_id. unfold in_range. lia.
Qed.

Lemma incr_MaxInt : incr MaxInt = MinInt.
Proof. reflexivity. Qed.

End GoIntFacts.

(** ** Single calls *)

Section Calls.
Implicit Types (c : Cache) (k : string).

Lemma Set_data c k v : data (Set_ c k v) = <[k := v]> (data c).
Proof. unfold Set_. by destruct (accessCount c !! k). Qed.

Lemma Set_hits c k v : hits (Set_ c k v) = hits c.
Proof. unfold Set_. by destruct (accessCount c !! k). Qed.

Lemma Set_misses c k v : misses (Set_ c k v) = misses c.
Proof. unfold Set_. by destruct (accessCount c !! k). Qed.

Lemma Set_count_new c k v :
  accessCount c !! k = None → accessCount (Set_ c k v) = <[k := 0]> (accessCount c).
Proof. intros Hk. unfold Set_. by rewrite Hk. Qed.

Lemma Set_count_old c k v :
  is_Some (accessCount c !! k) → accessCount (Set_ c k v) = accessCount c.
Proof. intros [n Hk]. unfold Set_. by rewrite Hk. Qed.

Lemma Set_count_other c k k' v :
  k ≠ k' → accessCount (Set_ c k v) !! k' = accessCount c !! k'.
Proof.
  intros Hne. unfold Set_. destruct (accessCount c !! k); simpl; [done|].
  by rewrite lookup_insert_ne.
Qed.

Lemma Get_hit c k v :
  data c !! k = Some v →
  Get c k =
    ((v, true),
     {| data := data c;
        accessCount :=
          <[k := GoInt.incr (default 0 (accessCount c !! k))]> (accessCount c);
        hits := GoInt.incr (hits c); misses := misses c |}).
Proof. intros Hk. unfold Get. by rewrite Hk. Qed.

Lemma Get_miss c k :
  data c !! k = None →
  Get c k =
    ((""%string, false),
     {| data := data c; accessCount := accessCount c;
        hits := hits c; misses := GoInt.incr (misses c) |}).
Proof. intros Hk. unfold Get. by rewrite Hk. Qed.

Lemma Get_data c k : data (Get c k).2 = data c.
Proof. unfold Get. by destruct (data c !! k). Qed.

Lemma Get_count_other c k k' :
  k ≠ k' → accessCount (Get c k).2 !! k' = accessCount c !! k'.
Proof.
  intros Hne. unfold Get. destruct (data c !! k); simpl; [|done].
  by rewrite lookup_insert_ne.
Qed.

Lemma Delete_data c k : data (Delete c k).2 = delete k (data c).
Proof.
  unfold Delete. destruct (data c !! k) eqn:Hk; simpl; [done|].
  by rewrite delete_id.
Qed.

Lemma Delete_hits c k : hits (Delete c k).2 = hits c.
Proof. unfold Delete. by destruct (data c !! k). Qed.

Lemma Delete_misses c k : misses (Delete c k).2 = misses c.
Proof. unfold Delete. by destruct (data c !! k). Qed.

Lemma Delete_count_other c k k' :
  k ≠ k' → accessCount (Delete c k).2 !! k' = accessCount c !! k'.
Proof.
  intros Hne. unfold Delete. destruct (data c !! k); simpl; [|done].
  by rewrite lookup_delete_ne.
Qed.

End Calls.

(** ** The invariant *)

Section Invariant.
Import GoInt GoIntFacts.

Lemma wf_NewCache : wf NewCache.
Proof.
  split; simpl.
  - intros k. rewrite !lookup_empty. split; intros [? ?]; done.
  - unfold in_range. rewrite MinInt_eq, MaxInt_eq. lia.
  - unfold in_range. rewrite MinInt_eq, MaxInt_eq. lia.
  - intros k n. by rewrite lookup_empty.
Qed.

Lemma wf_Clear c : wf (Clear c).
Proof. apply wf_NewCache. Qed.

Lemma wf_Set c k v : wf c → wf (Set_ c k v).
Proof.
  intros [Hdom Hh Hm Hc]. split.
  - intros k'. rewrite Set_data. destruct (decide (k = k')) as [->|Hne].
    + rewrite lookup_insert_eq. unfold Set_.
      destruct (accessCount c !! k') eqn:Hk; simpl.
      * rewrite Hk. split; eauto.
      * rewrite lookup_insert_eq. split; eauto.
    + rewrite lookup_insert_ne by done. rewrite Set_count_other by done. apply Hdom.
  - by rewrite Set_hits.
  - by rewrite Set_misses.
  - intros k' n. unfold Set_. destruct (accessCount c !! k) eqn:Hk; simpl.
    + apply Hc.
    + destruct (decide (k = k')) as [->|Hne].
      * rewrite lookup_insert_eq. intros [= <-].
        unfold in_range. rewrite MinInt_eq, MaxInt_eq. lia.
      * rewrite lookup_insert_ne by done. apply Hc.
Qed.

Lemma wf_Get c k : wf c → wf (Get c k).2.
Proof.
  intros [Hdom Hh Hm Hc]. unfold Get.
  destruct (data c !! k) eqn:Hk; simpl; split; simpl; try done.
  - intros k'. destruct (decide (k = k')) as [->|Hne].
    + rewrite lookup_insert_eq, Hk. split; eauto.
    + rewrite lookup_insert_ne by done. apply Hdom.
  - apply wrap_in_range.
  - intros k' n. destruct (decide (k = k')) as [->|Hne].
    + rewrite lookup_insert_eq. intros [= <-]. apply wrap_in_range.
    + rewrite lookup_insert_ne by done. apply Hc.
  - apply wrap_in_range.
Qed.

Lemma wf_Delete c k : wf c → wf (Delete c k).2.
Proof.
  intros [Hdom Hh Hm Hc]. unfold Delete.
  destruct (data c !! k) eqn:Hk; simpl; [|done]. split; simpl; try done.
  - intros k'. destruct (decide (k = k')) as [->|Hne].
    + rewrite !lookup_delete_eq. split; intros [? ?]; done.
    + rewrite !lookup_delete_ne by done. apply Hdom.
  - intros k' n Hn. apply lookup_delete_Some in Hn as [_ Hn]. by eapply Hc.
Qed.

Lemma wf_step c o : wf c → wf (step c o).
Proof.
  destruct o; simpl; auto using wf_Set, wf_Get, wf_Delete, wf_Clear.
Qed.

Lemma wf_run ops c : wf c → wf (run ops c).
Proof.
  revert c. induction ops as [|o ops IH]; intros c Hc; simpl; [done|].
  apply IH, wf_step, Hc.
Qed.

Lemma wf_reachable c : reachable c → wf c.
Proof. intros [ops ->]. apply wf_run, wf_NewCache. Qed.

Lemma run_app ops1 ops2 c : run (ops1 ++ ops2) c = run ops2 (run ops1 c).
Proof. unfold run. apply foldl_app. Qed.

Lemma run_snoc ops o c : run (ops ++ [o]) c = step (run ops c) o.
Proof. by rewrite run_app. Qed.

Lemma wf_absent c k : wf c → data c !! k = None → accessCount c !! k = None.
Proof.
  intros Hwf Hk. destruct (accessCount c !! k) eqn:Hc; [|done].
  assert (is_Some (data c !! k)) as [? ?] by (apply Hwf; eauto). congruence.
Qed.

Lemma wf_present c k : wf c → is_Some (data c !! k) → is_Some (accessCount c !! k).
Proof. intros Hwf. apply Hwf. Qed.

End Invariant.

(** ** Counting along a history *)

Section Counting.
Import GoInt GoIntFacts.

Lemma Stats_hits c : (Stats c).1.1 = hits c.
Proof. unfold Stats. by destruct (_ =? _). Qed.

Lemma Stats_misses c : (Stats c).1.2 = misses c.
Proof. unfold Stats. by destruct (_ =? _). Qed.

Lemma gets_since_clear_snoc ops o :
  gets_since_clear (ops ++ [o]) =
    match o with
    | OpGet _ => gets_since_clear ops + 1
    | OpClear => 0
    | _ => gets_since_clear ops
    end.
Proof. unfold gets_since_clear. by rewrite foldl_app. Qed.

Lemma gets_since_clear_nonneg ops : 0 <= gets_since_clear ops.
Proof.
  induction ops as [|o ops IH] using rev_ind; [done|].
  rewrite gets_since_clear_snoc. destruct o; lia.
Qed.

(** The counters hold the exact numbers of hits and misses since the last
    [Clear], wrapped into [int]. *)
Lemma counters_exact ops :
  ∃ h m, 0 <= h ∧ 0 <= m ∧ h + m = gets_since_clear ops ∧
         hits (run ops NewCache) = wrap h ∧ misses (run ops NewCache) = wrap m.
Proof.
  induction ops as [|o ops IH] using rev_ind.
  - exists 0, 0. by repeat split.
  - destruct IH as (h & m & Hh & Hm & Hsum & Hhits & Hmisses).
    rewrite run_snoc, gets_since_clear_snoc. destruct o as [k v|k|k|]; simpl.
    + exists h, m. by rewrite Set_hits, Set_misses.
    + unfold Get. destruct (data _ !! k); simpl.
      * exists (h + 1), m. rewrite Hhits, incr_wrap. repeat split; try done; lia.
      * exists h, (m + 1). rewrite Hmisses, incr_wrap. repeat split; try done; lia.
    + exists h, m. by rewrite Delete_hits, Delete_misses.
    + exists 0, 0. by repeat split.
Qed.

Lemma gets_since_clear_replicate (n : nat) k :
  gets_since_clear (replicate n (OpGet k)) = Z.of_nat n.
Proof.
  induction n as [|n IH] using nat_ind; [done|].
  rewrite replicate_S_end, gets_since_clear_snoc, IH. lia.
Qed.

Lemma gets_of_cons k o ops :
  gets_of k (o :: ops) =
    match o with
    | OpGet k' => if decide (k' = k) then 1 else 0
    | _ => 0
    end + gets_of k ops.
Proof.
  unfold gets_of. simpl.
  set (f := λ (n : Z) (o : op), match o with
              | OpGet k' => if decide (k' = k) then n + 1 else n
              | _ => n end).
  assert (Hshift : ∀ l a, foldl f a l = a + foldl f 0 l).
  { induction l as [|x l IHl]; intros a; simpl; [lia|].
    rewrite (IHl (f a x)), (IHl (f 0 x)).
    subst f. simpl. destruct x; try case_decide; lia. }
  rewrite Hshift. by f_equal.
Qed.

Lemma gets_of_nonneg k ops : 0 <= gets_of k ops.
Proof.
  induction ops as [|o ops IH]; [done|].
  rewrite gets_of_cons. destruct o; try case_decide; lia.
Qed.

Lemma gets_of_replicate (n : nat) k : gets_of k (replicate n (OpGet k)) = Z.of_nat n.
Proof.
  induction n as [|n IH]; [done|].
  change (replicate (S n) (OpGet k)) with (OpGet k :: replicate n (OpGet k)).
  rewrite gets_of_cons, IH. case_decide; [lia|done].
Qed.

(** While a key stays in the cache, its counter holds the number of its
    [Get] calls, wrapped into [int]. *)
Lemma count_tracks k mid :
  Forall (λ o, removes k o = false) mid →
  ∀ c n,
    is_Some (data c !! k) → accessCount c !! k = Some (wrap n) →
    is_Some (data (run mid c) !! k) ∧
    accessCount (run mid c) !! k = Some (wrap (n + gets_of k mid)).
Proof.
  induction 1 as [|o mid Ho _ IH]; intros c n Hdata Hcount.
  - split; [done|]. simpl. by rewrite Z.add_0_r.
  - rewrite gets_of_cons. change (run (o :: mid) c) with (run mid (step c o)).
    destruct o as [k' v|k'|k'|]; simpl in *.
    + rewrite Z.add_0_l. apply IH.
      * rewrite Set_data. destruct (decide (k' = k)) as [->|Hne].
        -- rewrite lookup_insert_eq. eauto.
        -- by rewrite lookup_insert_ne.
      * destruct (decide (k' = k)) as [->|Hne].
        -- rewrite Set_count_old; eauto.
        -- by rewrite Set_count_other.
    + destruct (decide (k' = k)) as [->|Hne].
      * replace (n + (1 + gets_of k mid)) with ((n + 1) + gets_of k mid) by lia.
        apply IH; [by rewrite Get_data|].
        destruct Hdata as [v Hv]. rewrite (Get_hit _ _ _ Hv). simpl.
        rewrite lookup_insert_eq, Hcount. simpl. by rewrite incr_wrap.
      * rewrite Z.add_0_l. apply IH; [by rewrite Get_data|].
        by rewrite Get_count_other.
    + apply bool_decide_eq_false in Ho. rewrite Z.add_0_l. apply IH.
      * rewrite Delete_data. by rewrite lookup_delete_ne.
      * by rewrite Delete_count_other.
    + done.
Qed.

Lemma run_cons o ops c : run (o :: ops) c = run ops (step c o).
Proof. reflexivity. Qed.

Lemma run_misses (n : nat) k c :
  data c !! k = None → in_range (misses c) →
  run (replicate n (OpGet k)) c =
    {| data := data c; accessCount := accessCount c; hits := hits c;
       misses := wrap (misses c + Z.of_nat n) |}.
Proof.
  intros Hk Hm. induction n as [|n IH].
  - simpl. rewrite Z.add_0_r, wrap_id by done. by destruct c.
  - rewrite replicate_S_end, run_snoc, IH. simpl.
    rewrite Get_miss by done. simpl. rewrite incr_wrap. do 2 f_equal. lia.
Qed.

End Counting.

(** ** Hit and miss accounting *)

(** C3, as the counters allow it: along any history from a new cache, as
    long as no more than [MaxInt] calls of [Get] were made since the last
    [Clear], the hits and the misses that [Stats] reports add up to the
    number of those calls. *)
Theorem hits_plus_misses_counts_gets (ops : list op) :
  gets_since_clear ops <= GoInt.MaxInt →
  (Stats (run ops NewCache)).1.1 + (Stats (run ops NewCache)).1.2
  = gets_since_clear ops.
Proof.
  intros Hbound. rewrite Stats_hits, Stats_misses.
  destruct (counters_exact ops) as (h & m & Hh & Hm & Hsum & -> & ->).
  rewrite !GoIntFacts.wrap_id; [done| |];
    unfold GoInt.in_range; rewrite GoIntFacts.MinInt_eq; lia.
Qed.

Lemma hits_plus_misses_counts_gets_witness :
  (Stats (run [OpSet "a" "1"; OpSet "b" "2"; OpGet "a"; OpGet "a"; OpGet "a";
               OpGet "b"; OpGet "c"; OpGet "c"] NewCache)).1.1
  + (Stats (run [OpSet "a" "1"; OpSet "b" "2"; OpGet "a"; OpGet "a"; OpGet "a";
                 OpGet "b"; OpGet "c"; OpGet "c"] NewCache)).1.2
  = 6.
Proof.
  apply (hits_plus_misses_counts_gets
           [OpSet "a" "1"; OpSet "b" "2"; OpGet "a"; OpGet "a"; OpGet "a";
            OpGet "b"; OpGet "c"; OpGet "c"]).
  vm_compute. discriminate.
Defined.

(** C3 fails as stated: after 2^63 calls of [Get] on a new cache the misses
    counter has wrapped to [MinInt], and hits plus misses is not the number
    of calls. *)
Lemma hits_plus_misses_wraps :
  (Stats (run (replicate (Z.to_nat (2 ^ 63)) (OpGet "a")) NewCache)).1.1
  + (Stats (run (replicate (Z.to_nat (2 ^ 63)) (OpGet "a")) NewCache)).1.2
  ≠ gets_since_clear (replicate (Z.to_nat (2 ^ 63)) (OpGet "a")).
Proof.
  rewrite Stats_hits, Stats_misses, gets_since_clear_replicate.
  rewrite run_misses; [|done|by vm_compute].
  simpl hits. simpl misses. rewrite Z2Nat.id by lia.
  rewrite GoIntFacts.wrap_eq. vm_compute. discriminate.
Qed.

(** ** Access counts *)

(** C4, as the counters allow it: from the [Set] that creates a key, and
    while no [Delete] of the key and no [Clear] comes, the key stays in the
    cache (every [Get] of it succeeds) and its access count is the number
    of those [Get] calls, as long as that number is at most [MaxInt]; the
    count starts from 0. *)
Theorem access_count_counts_gets (prior : list op) (k v : string) (mid : list op) :
  data (run prior NewCache) !! k = None →
  Forall (λ o, removes k o = false) mid →
  gets_of k mid <= GoInt.MaxInt →
  accessCount (run (prior ++ [OpSet k v]) NewCache) !! k = Some 0 ∧
  is_Some (data (run (prior ++ OpSet k v :: mid) NewCache) !! k) ∧
  accessCount (run (prior ++ OpSet k v :: mid) NewCache) !! k
  = Some (gets_of k mid).
Proof.
  intros Habsent Hmid Hbound.
  assert (Hnew : accessCount (Set_ (run prior NewCache) k v) !! k = Some 0).
  { rewrite Set_count_new; [apply lookup_insert_eq|].
    apply wf_absent; [apply wf_run, wf_NewCache|done]. }
  split; [by rewrite run_snoc|].
  rewrite run_app, run_cons. simpl step.
  destruct (count_tracks k mid Hmid (Set_ (run prior NewCache) k v) 0) as [Hin Hcount].
  - rewrite Set_data, lookup_insert_eq. eauto.
  - by rewrite Hnew.
  - split; [done|]. rewrite Hcount, Z.add_0_l, GoIntFacts.wrap_id; [done|].
    pose proof (gets_of_nonneg k mid).
    unfold GoInt.in_range. rewrite GoIntFacts.MinInt_eq. lia.
Qed.

Lemma access_count_counts_gets_witness :
  accessCount (run ([] ++ [OpSet "a" "1"]) NewCache) !! "a" = Some 0 ∧
  is_Some (data (run ([] ++ OpSet "a" "1" :: [OpGet "a"; OpSet "a" "2"; OpGet "b"; OpGet "a"])
                   NewCache) !! "a") ∧
  accessCount (run ([] ++ OpSet "a" "1" :: [OpGet "a"; OpSet "a" "2"; OpGet "b"; OpGet "a"])
                 NewCache) !! "a"
  = Some 2.
Proof.
  apply (access_count_counts_gets [] "a" "1"
           [OpGet "a"; OpSet "a" "2"; OpGet "b"; OpGet "a"]).
  - reflexivity.
  - repeat constructor.
  - vm_compute. discriminate.
Defined.

(** C4 fails as stated: a key that is set and then read 2^63 times has the
    access count [MinInt], not 2^63. *)
Lemma access_count_wraps :
  accessCount
    (run (OpSet "a" "v" :: replicate (Z.to_nat (2 ^ 63)) (OpGet "a")) NewCache) !! "a"
  ≠ Some (2 ^ 63).
Proof.
  rewrite run_cons.
  assert (Hmid : Forall (λ o, removes "a" o = false)
                   (replicate (Z.to_nat (2 ^ 63)) (OpGet "a")))
    by (by apply Forall_replicate).
  destruct (count_tracks "a" _ Hmid (step NewCache (OpSet "a" "v")) 0)
    as [_ Hcount]; [by eexists|done|].
  rewrite Hcount, gets_of_replicate, Z2Nat.id by lia.
  rewrite GoIntFacts.wrap_eq. vm_compute. discriminate.
Qed.

(** ** [Set] on a key that is there *)

(** C5: on a key the cache holds, [Set] replaces the value and leaves the
    access counts as they are; and from a state without the key, [Set],
    three [Get], [Set] leave the count at 3 and the second value in place. *)
Theorem Set_keeps_count (prior : list op) (k v1 v2 : string) :
  (is_Some (data (run prior NewCache) !! k) →
   accessCount (Set_ (run prior NewCache) k v2) = accessCount (run prior NewCache) ∧
   (Get (Set_ (run prior NewCache) k v2) k).1 = (v2, true)) ∧
  (data (run prior NewCache) !! k = None →
   accessCount
     (run (prior ++ [OpSet k v1; OpGet k; OpGet k; OpGet k; OpSet k v2]) NewCache) !! k
   = Some 3 ∧
   (Get (run (prior ++ [OpSet k v1; OpGet k; OpGet k; OpGet k; OpSet k v2]) NewCache) k).1
   = (v2, true)).
Proof.
  split.
  - intros Hin. split.
    + apply Set_count_old, wf_present; [apply wf_run, wf_NewCache|done].
    + erewrite Get_hit; [done|]. by rewrite Set_data, lookup_insert_eq.
  - intros Habsent.
    assert (Hnew : accessCount (Set_ (run prior NewCache) k v1) !! k = Some (GoInt.wrap 0)).
    { rewrite Set_count_new; [apply lookup_insert_eq|].
      apply wf_absent; [apply wf_run, wf_NewCache|done]. }
    rewrite run_app, run_cons. simpl step.
    destruct (count_tracks k [OpGet k; OpGet k; OpGet k]) with
      (c := Set_ (run prior NewCache) k v1) (n := 0) as [Hin Hcount].
    + repeat constructor.
    + rewrite Set_data, lookup_insert_eq. eauto.
    + done.
    + change [OpGet k; OpGet k; OpGet k; OpSet k v2]
        with ([OpGet k; OpGet k; OpGet k] ++ [OpSet k v2]).
      rewrite run_snoc.
      change (step ?c (OpSet k v2)) with (Set_ c k v2). split.
      * rewrite Set_count_old by (rewrite Hcount; eauto).
        rewrite Hcount. rewrite !gets_of_cons. rewrite decide_True by done. done.
      * erewrite Get_hit; [done|]. by rewrite Set_data, lookup_insert_eq.
Qed.

Lemma Set_keeps_count_witness :
  accessCount (Set_ (run [OpSet "k" "v0"; OpGet "k"] NewCache) "k" "v2")
  = accessCount (run [OpSet "k" "v0"; OpGet "k"] NewCache) ∧
  accessCount
    (run ([] ++ [OpSet "k" "v1"; OpGet "k"; OpGet "k"; OpGet "k"; OpSet "k" "v2"])
       NewCache) !! "k"
  = Some 3.
Proof.
  split.
  - apply (Set_keeps_count [OpSet "k" "v0"; OpGet "k"] "k" "v1" "v2"). by eexists.
  - apply (Set_keeps_count [] "k" "v1" "v2"). reflexivity.
Defined.

(** ** [Delete] *)

Section Deleting.

Lemma absent_step k o c :
  sets k o = false →
  data c !! k = None → accessCount c !! k = None →
  data (step c o) !! k = None ∧ accessCount (step c o) !! k = None.
Proof.
  intros Ho Hd Ha. destruct o as [k' v|k'|k'|]; simpl in *.
  - apply bool_decide_eq_false in Ho.
    rewrite Set_data, lookup_insert_ne, Set_count_other by done. done.
  - rewrite Get_data. split; [done|].
    destruct (decide (k' = k)) as [->|Hne].
    + by rewrite Get_miss.
    + by rewrite Get_count_other.
  - rewrite Delete_data. split.
    + destruct (decide (k' = k)) as [->|Hne];
        [apply lookup_delete_eq|by rewrite lookup_delete_ne].
    + destruct (decide (k' = k)) as [->|Hne];
        [|by rewrite Delete_count_other].
      unfold Delete. by rewrite Hd.
  - by rewrite !lookup_empty.
Qed.

Lemma absent_run k mid :
  Forall (λ o, sets k o = false) mid →
  ∀ c, data c !! k = None → accessCount c !! k = None →
       data (run mid c) !! k = None ∧ accessCount (run mid c) !! k = None.
Proof.
  induction 1 as [|o mid Ho _ IH]; intros c Hd Ha; [done|].
  rewrite run_cons. destruct (absent_step k o c Ho Hd Ha). by apply IH.
Qed.

Lemma Delete_removes c k :
  wf c → data (Delete c k).2 !! k = None ∧ accessCount (Delete c k).2 !! k = None.
Proof.
  intros Hwf. rewrite Delete_data, lookup_delete_eq. split; [done|].
  unfold Delete. destruct (data c !! k) eqn:Hk; simpl.
  - apply lookup_delete_eq.
  - by apply wf_absent.
Qed.

End Deleting.

(** C6: whatever came before, once [Delete(k)] was called the next
    [Set(k, v)] gives [k] the access count 0. *)
Theorem Set_after_Delete_starts_at_0 (prior : list op) (k v : string) (mid : list op) :
  Forall (λ o, sets k o = false) mid →
  accessCount (run (prior ++ OpDelete k :: mid ++ [OpSet k v]) NewCache) !! k = Some 0.
Proof.
  intros Hmid. rewrite run_app, run_cons, run_snoc. simpl step.
  destruct (Delete_removes (run prior NewCache) k) as [Hd Ha];
    [apply wf_run, wf_NewCache|].
  destruct (absent_run k mid Hmid _ Hd Ha) as [_ Ha'].
  rewrite Set_count_new by done. apply lookup_insert_eq.
Qed.

Lemma Set_after_Delete_starts_at_0_witness :
  accessCount
    (run ([OpSet "k" "v"; OpGet "k"; OpGet "k"] ++
          OpDelete "k" :: [OpGet "k"; OpSet "j" "w"] ++ [OpSet "k" "v"]) NewCache) !! "k"
  = Some 0.
Proof.
  apply (Set_after_Delete_starts_at_0 [OpSet "k" "v"; OpGet "k"; OpGet "k"] "k" "v"
           [OpGet "k"; OpSet "j" "w"]).
  repeat constructor.
Defined.

(** C9: on a state that a history reaches, [Delete(k)] answers whether the
    cache held [k], takes [k] out of both maps and nothing else, leaves the
    two counters alone, and a second [Delete(k)] answers false. *)
Theorem Delete_spec (c : Cache) (k : string) :
  reachable c →
  ((Delete c k).1 = true ↔ is_Some (data c !! k)) ∧
  data (Delete c k).2 !! k = None ∧
  accessCount (Delete c k).2 !! k = None ∧
  (∀ k', k' ≠ k →
         data (Delete c k).2 !! k' = data c !! k' ∧
         accessCount (Delete c k).2 !! k' = accessCount c !! k') ∧
  hits (Delete c k).2 = hits c ∧
  misses (Delete c k).2 = misses c ∧
  (Delete (Delete c k).2 k).1 = false.
Proof.
  intros Hc%wf_reachable.
  destruct (Delete_removes c k Hc) as [Hd Ha].
  repeat split; try done.
  - unfold Delete. destruct (data c !! k); simpl; [eauto|done].
  - unfold Delete. destruct (data c !! k); simpl; [done|]. by intros [? ?].
  - rewrite Delete_data. by rewrite lookup_delete_ne.
  - by rewrite Delete_count_other.
  - apply Delete_hits.
  - apply Delete_misses.
  - unfold Delete at 1. by rewrite Hd.
Qed.

Lemma Delete_spec_witness :
  (Delete (run [OpSet "x" "v"] NewCache) "x").1 = true ∧
  (Delete (Delete (run [OpSet "x" "v"] NewCache) "x").2 "x").1 = false ∧
  Size (Delete (run [OpSet "x" "v"] NewCache) "x").2 = 0.
Proof.
  destruct (Delete_spec (run [OpSet "x" "v"] NewCache) "x") as (Hret & _ & _ & _ & _ & _ & Hagain).
  - by exists [OpSet "x" "v"].
  - split; [|split].
    + apply Hret. by eexists.
    + exact Hagain.
    + reflexivity.
Defined.

(** ** Loops and library calls *)

Section Loops.

Lemma append_keys_fmap {V : Type} (seen : list (string * V)) :
  append_keys seen = seen.*1.
Proof.
  unfold append_keys.
  assert (Hgen : ∀ acc, foldl (λ keys (kv : string * V), keys ++ [kv.1]) acc seen
                        = acc ++ seen.*1); [|apply (Hgen [])].
  induction seen as [|kv seen IH]; intros acc; simpl.
  - by rewrite app_nil_r.
  - by rewrite IH, <-app_assoc.
Qed.

Lemma append_items_fmap (seen : list (string * Z)) :
  append_items seen = (λ kv, KeyCount kv.1 kv.2) <$> seen.
Proof.
  unfold append_items.
  assert (Hgen : ∀ acc, foldl (λ items (kv : string * Z), items ++ [KeyCount kv.1 kv.2])
                          acc seen
                        = acc ++ ((λ kv, KeyCount kv.1 kv.2) <$> seen));
    [|apply (Hgen [])].
  induction seen as [|kv seen IH]; intros acc; simpl.
  - by rewrite app_nil_r.
  - by rewrite IH, <-app_assoc.
Qed.

Lemma append_first_take n i items result :
  append_first n i items result = result ++ (key <$> take (Z.to_nat (n - i)) items).
Proof.
  revert i result. induction items as [|item rest IH]; intros i result; simpl.
  - by rewrite take_nil, app_nil_r.
  - destruct (Z.ltb_spec i n) as [Hlt|Hge].
    + rewrite IH. replace (Z.to_nat (n - i)) with (S (Z.to_nat (n - (i + 1)))) by lia.
      simpl. by rewrite <-app_assoc.
    + replace (Z.to_nat (n - i)) with 0%nat by lia. by rewrite app_nil_r.
Qed.

Lemma makeslice_ok_spec `{Runtime} size cap :
  makeslice_ok size cap = true ↔ 0 <= cap ∧ size * cap <= maxAlloc.
Proof. unfold makeslice_ok. rewrite andb_true_iff, !Z.leb_le. done. Qed.

Lemma makeslice_ok_0 `{Runtime} size : makeslice_ok size 0 = true.
Proof. apply makeslice_ok_spec. pose proof maxAlloc_uintptr. lia. Qed.

Lemma makeslice_negative `{Runtime} size cap : cap < 0 → makeslice_ok size cap = false.
Proof. intros Hcap. apply not_true_is_false. rewrite makeslice_ok_spec. lia. Qed.

Lemma makeslice_MaxInt `{Runtime} : makeslice_ok stringSize GoInt.MaxInt = false.
Proof.
  apply not_true_is_false. rewrite makeslice_ok_spec.
  pose proof maxAlloc_uintptr. rewrite GoIntFacts.MaxInt_eq. unfold stringSize. lia.
Qed.

Lemma first_n_Returns `{Runtime} n items :
  makeslice_ok stringSize n = true →
  first_n n items = Returns (key <$> take (Z.to_nat n) items).
Proof.
  intros Hok. unfold first_n. rewrite Hok, append_first_take. simpl.
  by rewrite Z.sub_0_r.
Qed.

Lemma first_n_Panics `{Runtime} n items :
  makeslice_ok stringSize n = false → first_n n items = Panics.
Proof. intros Hok. unfold first_n. by rewrite Hok. Qed.

Lemma range_map_map_to_list {V : Type} (m : gmap string V) :
  range_map m (map_to_list m).
Proof. unfold range_map. reflexivity. Qed.

Lemma sort_Slice_sort_by {A : Type} (less : A → A → bool)
  `{!Transitive (in_order less), !Total (in_order less)} (l : list A) :
  sort_Slice less l (sort_by less l).
Proof.
  split.
  - symmetry. apply merge_sort_Permutation.
  - by apply StronglySorted_merge_sort.
Qed.

Lemma sort_Slice_nil {A : Type} (less : A → A → bool) (after : list A) :
  sort_Slice less [] after → after = [].
Proof. intros [Hperm _]. by apply Permutation_nil_l in Hperm. Qed.

End Loops.

(** ** The orders the sorts work with *)

Section Orders.

#[global] Instance less_desc_trans : Transitive (in_order less_desc).
Proof. intros a b c. unfold in_order, less_desc. rewrite !Z.ltb_ge. lia. Qed.

#[global] Instance less_desc_total : Total (in_order less_desc).
Proof. intros a b. unfold in_order, less_desc. rewrite !Z.ltb_ge. lia. Qed.

#[global] Instance less_asc_trans : Transitive (in_order less_asc).
Proof. intros a b c. unfold in_order, less_asc. rewrite !Z.ltb_ge. lia. Qed.

#[global] Instance less_asc_total : Total (in_order less_asc).
Proof. intros a b. unfold in_order, less_asc. rewrite !Z.ltb_ge. lia. Qed.

Lemma in_order_desc a b : in_order less_desc a b ↔ count b <= count a.
Proof. unfold in_order, less_desc. by rewrite Z.ltb_ge. Qed.

Lemma in_order_asc a b : in_order less_asc a b ↔ count a <= count b.
Proof. unfold in_order, less_asc. by rewrite Z.ltb_ge. Qed.

Lemma in_order_string a b :
  in_order String.ltb a b ↔ a = b ∨ String_as_OT.lt a b.
Proof.
  unfold in_order, String.ltb.
  rewrite <-String_as_OT.cmp_lt, <-String_as_OT.cmp_eq. unfold String_as_OT.cmp.
  rewrite (String.compare_antisym a b).
  destruct (String.compare b a); simpl; split; intros Hc;
    try done; try (by left); try (by right); by destruct Hc.
Qed.

#[global] Instance string_order_trans : Transitive (in_order String.ltb).
Proof.
  intros a b c. rewrite !in_order_string.
  intros [->|Hab] [->|Hbc]; eauto using String_as_OT.lt_trans.
Qed.

#[global] Instance string_order_total : Total (in_order String.ltb).
Proof.
  intros a b. rewrite !in_order_string.
  destruct (String.compare a b) eqn:Hc.
  - left. left. by apply String_as_OT.cmp_eq.
  - left. right. by apply String_as_OT.cmp_lt.
  - right. right. apply String_as_OT.cmp_lt. unfold String_as_OT.cmp.
    rewrite String.compare_antisym, Hc. done.
Qed.

#[global] Instance string_order_antisym : AntiSymm (=) (in_order String.ltb).
Proof.
  intros a b. rewrite !in_order_string.
  intros [->|Hab] [Heq|Hba]; try done.
  exfalso. apply (String_as_OT.lt_not_eq a a); [|done].
  by apply (String_as_OT.lt_trans a b a).
Qed.

Lemma ltb_string a b : (a <? b)%string = true ↔ in_order String.ltb a b ∧ a ≠ b.
Proof.
  rewrite in_order_string. unfold String.ltb.
  change (String.compare a b) with (String_as_OT.cmp a b). split.
  - intros Hlt. assert (String_as_OT.lt a b) as Hab.
    { apply String_as_OT.cmp_lt. by destruct (String_as_OT.cmp a b). }
    split; [by right|]. by apply String_as_OT.lt_not_eq.
  - intros [[->|Hab] Hne]; [done|].
    apply String_as_OT.cmp_lt in Hab. by rewrite Hab.
Qed.

End Orders.

(** ** Sorted items *)

Section Sorted.
Context (less : keyCount → keyCount → bool) (best : relation Z).
Hypothesis less_best : ∀ a b, in_order less a b ↔ best (count a) (count b).

Implicit Types (m : gmap string Z) (sorted : list keyCount).

Lemma sorted_entries m seen sorted :
  range_map m seen → sort_Slice less (append_items seen) sorted →
  sorted ≡ₚ entries m ∧ StronglySorted (in_order less) sorted.
Proof.
  unfold range_map. intros Hseen [Hperm Hsorted]. split; [|done].
  rewrite <-Hperm, append_items_fmap. unfold entries. by rewrite Hseen.
Qed.

Lemma elem_of_entries m item :
  item ∈ entries m ↔ m !! key item = Some (count item).
Proof.
  unfold entries. rewrite list_elem_of_fmap. split.
  - intros ([k a] & -> & Hin). by apply elem_of_map_to_list in Hin.
  - intros Hin. exists (key item, count item). split; [by destruct item|].
    by apply elem_of_map_to_list.
Qed.

Lemma entries_keys m : key <$> entries m = (map_to_list m).*1.
Proof. unfold entries. rewrite <-list_fmap_compose. by apply list_fmap_ext. Qed.

Lemma length_entries m : length (entries m) = size m.
Proof. unfold entries. by rewrite length_fmap, length_map_to_list. Qed.

Lemma StronglySorted_lookup {A : Type} (R : relation A) (l : list A) (i j : nat) a b :
  StronglySorted R l → (i < j)%nat → l !! i = Some a → l !! j = Some b → R a b.
Proof.
  intros Hl Hij Ha Hb. rewrite <-(take_drop j l) in Hl.
  eapply StronglySorted_app_1_elem_of; [done| |].
  - apply elem_of_take. eauto.
  - apply list_elem_of_lookup. exists 0%nat. by rewrite lookup_drop, Nat.add_0_r.
Qed.

Lemma ranking_of_sorted m n sorted :
  sorted ≡ₚ entries m → StronglySorted (in_order less) sorted →
  ranking best m n (key <$> take (Z.to_nat n) sorted).
Proof.
  intros Hperm Hsorted.
  assert (Hin : ∀ item, item ∈ sorted ↔ m !! key item = Some (count item)).
  { intros item. rewrite Hperm. apply elem_of_entries. }
  assert (Hlisted : ∀ k, k ∈ key <$> take (Z.to_nat n) sorted →
                         ∃ item, item ∈ take (Z.to_nat n) sorted ∧ key item = k ∧
                                 m !! k = Some (count item)).
  { intros k (item & -> & Hitem)%list_elem_of_fmap. exists item.
    repeat split; [done|]. apply Hin.
    apply elem_of_take in Hitem as (i & Hi & _). by eapply list_elem_of_lookup_2. }
  split.
  - rewrite fmap_take. apply (sublist_NoDup _ (key <$> sorted)); [|apply sublist_take].
    rewrite Hperm, entries_keys. apply NoDup_fst_map_to_list.
  - by rewrite length_fmap, length_take, Hperm, length_entries.
  - intros k (item & _ & _ & Hk)%Hlisted. eauto.
  - intros i j ki kj ci cj Hij Hi Hj Hci Hcj.
    apply list_lookup_fmap_Some in Hi as (itemi & -> & Hi).
    apply list_lookup_fmap_Some in Hj as (itemj & -> & Hj).
    apply lookup_take_Some in Hi as [Hi _]. apply lookup_take_Some in Hj as [Hj _].
    assert (count itemi = ci) as <-.
    { apply list_elem_of_lookup_2, Hin in Hi. congruence. }
    assert (count itemj = cj) as <-.
    { apply list_elem_of_lookup_2, Hin in Hj. congruence. }
    apply less_best. by eapply StronglySorted_lookup.
  - intros k k' a a' (item & Hitem & <- & Hcount)%Hlisted Hout Ha Ha'.
    assert (count item = a) as <- by congruence.
    assert (KeyCount k' a' ∈ sorted) as Hitem' by by apply Hin.
    rewrite <-(take_drop (Z.to_nat n) sorted) in Hitem', Hsorted.
    apply elem_of_app in Hitem' as [Hitem'|Hitem'].
    + destruct Hout. apply list_elem_of_fmap. by exists (KeyCount k' a').
    + apply (less_best item (KeyCount k' a')).
      by eapply StronglySorted_app_1_elem_of.
Qed.

(** Two sorted arrangements of the same items carry the same counts,
    position by position. *)
Lemma sorted_counts `{!AntiSymm (=) best} m sorted1 sorted2 :
  sorted1 ≡ₚ entries m → StronglySorted (in_order less) sorted1 →
  sorted2 ≡ₚ entries m → StronglySorted (in_order less) sorted2 →
  count <$> sorted1 = count <$> sorted2.
Proof.
  intros Hperm1 Hsorted1 Hperm2 Hsorted2.
  apply (StronglySorted_unique best).
  - eapply StronglySorted_fmap; [|done]. intros a b. apply less_best.
  - eapply StronglySorted_fmap; [|done]. intros a b. apply less_best.
  - by rewrite Hperm1, Hperm2.
Qed.

(** ... and are the same arrangement when no two keys share a count. *)
Lemma sorted_unique `{!AntiSymm (=) best} m sorted1 sorted2 :
  distinct_counts m →
  sorted1 ≡ₚ entries m → StronglySorted (in_order less) sorted1 →
  sorted2 ≡ₚ entries m → StronglySorted (in_order less) sorted2 →
  sorted1 = sorted2.
Proof.
  intros Hdistinct Hperm1 Hsorted1 Hperm2 Hsorted2.
  apply (StronglySorted_unique_strong (in_order less)); try done.
  - intros x1 x2 Hx1 Hx2 H12%less_best H21%less_best.
    rewrite Hperm1 in Hx1. rewrite Hperm2 in Hx2.
    apply elem_of_entries in Hx1, Hx2.
    assert (count x1 = count x2) as Hcount by by apply (anti_symm best).
    rewrite Hcount in Hx1. destruct x1, x2; simpl in *.
    f_equal; [by eapply Hdistinct|done].
  - by rewrite Hperm1, Hperm2.
Qed.

Lemma listed_counts m n sorted :
  sorted ≡ₚ entries m →
  (λ k, m !! k) <$> (key <$> take (Z.to_nat n) sorted)
  = Some <$> (take (Z.to_nat n) (count <$> sorted)).
Proof.
  intros Hperm. rewrite <-fmap_take, <-!list_fmap_compose.
  apply Forall_fmap_ext, Forall_forall. intros item Hitem. simpl.
  apply elem_of_entries. rewrite <-Hperm.
  apply elem_of_take in Hitem as (i & Hi & _). by eapply list_elem_of_lookup_2.
Qed.

End Sorted.

(** ** The rankings *)

Section Rankings.
Context `{Runtime}.
Implicit Types (c : Cache) (n : Z) (r : outcome (list string)).

(** Each ranking has an outcome whatever the arguments. *)
Lemma MostAccessed_total c n :
  MostAccessed c n
    (first_n n (sort_by less_desc (append_items (map_to_list (accessCount c))))).
Proof.
  eexists _, _. split; [apply range_map_map_to_list|]. split; [|done].
  apply (sort_Slice_sort_by less_desc).
Qed.

Lemma LeastAccessed_total c n :
  LeastAccessed c n
    (first_n n (sort_by less_asc (append_items (map_to_list (accessCount c))))).
Proof.
  eexists _, _. split; [apply range_map_map_to_list|]. split; [|done].
  apply (sort_Slice_sort_by less_asc).
Qed.

Lemma MostAccessed_Panics c n r :
  makeslice_ok stringSize n = false → MostAccessed c n r ↔ r = Panics.
Proof.
  intros Hn. split.
  - intros (seen & sorted & _ & _ & ->). by apply first_n_Panics.
  - intros ->. erewrite <-first_n_Panics by done. apply MostAccessed_total.
Qed.

Lemma LeastAccessed_Panics c n r :
  makeslice_ok stringSize n = false → LeastAccessed c n r ↔ r = Panics.
Proof.
  intros Hn. split.
  - intros (seen & sorted & _ & _ & ->). by apply first_n_Panics.
  - intros ->. erewrite <-first_n_Panics by done. apply LeastAccessed_total.
Qed.

(** Where [make] accepts [n], [MostAccessed(n)] returns a ranking by
    descending access count ... *)
Lemma MostAccessed_ranks c n r :
  makeslice_ok stringSize n = true → MostAccessed c n r →
  ∃ keys, r = Returns keys ∧ ranking (λ a b, b <= a) (accessCount c) n keys.
Proof.
  intros Hn (seen & sorted & Hseen & Hsort & ->).
  destruct (sorted_entries less_desc _ _ _ Hseen Hsort) as [Hperm Hsorted].
  eexists. split; [by apply first_n_Returns|].
  by apply (ranking_of_sorted less_desc _ in_order_desc).
Qed.

(** ... and [LeastAccessed(n)] one by ascending access count. *)
Lemma LeastAccessed_ranks c n r :
  makeslice_ok stringSize n = true → LeastAccessed c n r →
  ∃ keys, r = Returns keys ∧ ranking (λ a b, a <= b) (accessCount c) n keys.
Proof.
  intros Hn (seen & sorted & Hseen & Hsort & ->).
  destruct (sorted_entries less_asc _ _ _ Hseen Hsort) as [Hperm Hsorted].
  eexists. split; [by apply first_n_Returns|].
  by apply (ranking_of_sorted less_asc _ in_order_asc).
Qed.

#[local] Instance ge_antisym : AntiSymm (=) (λ a b : Z, b <= a).
Proof. intros a b ? ?. lia. Qed.

#[local] Instance le_antisym : AntiSymm (=) (λ a b : Z, a <= b).
Proof. intros a b ? ?. lia. Qed.

Lemma MostAccessed_counts c n l1 l2 :
  MostAccessed c n (Returns l1) → MostAccessed c n (Returns l2) →
  (λ k, accessCount c !! k) <$> l1 = (λ k, accessCount c !! k) <$> l2.
Proof.
  intros (seen1 & sorted1 & Hseen1 & Hsort1 & Hr1) (seen2 & sorted2 & Hseen2 & Hsort2 & Hr2).
  destruct (sorted_entries less_desc _ _ _ Hseen1 Hsort1) as [Hperm1 Hsorted1].
  destruct (sorted_entries less_desc _ _ _ Hseen2 Hsort2) as [Hperm2 Hsorted2].
  destruct (makeslice_ok stringSize n) eqn:Hn;
    [|by rewrite first_n_Panics in Hr1].
  rewrite first_n_Returns in Hr1, Hr2 by done.
  injection Hr1 as ->. injection Hr2 as ->.
  rewrite !listed_counts by done.
  by rewrite (sorted_counts less_desc (λ a b, b <= a) in_order_desc _ _ _ Hperm1 Hsorted1 Hperm2 Hsorted2).
Qed.

Lemma LeastAccessed_counts c n l1 l2 :
  LeastAccessed c n (Returns l1) → LeastAccessed c n (Returns l2) →
  (λ k, accessCount c !! k) <$> l1 = (λ k, accessCount c !! k) <$> l2.
Proof.
  intros (seen1 & sorted1 & Hseen1 & Hsort1 & Hr1) (seen2 & sorted2 & Hseen2 & Hsort2 & Hr2).
  destruct (sorted_entries less_asc _ _ _ Hseen1 Hsort1) as [Hperm1 Hsorted1].
  destruct (sorted_entries less_asc _ _ _ Hseen2 Hsort2) as [Hperm2 Hsorted2].
  destruct (makeslice_ok stringSize n) eqn:Hn;
    [|by rewrite first_n_Panics in Hr1].
  rewrite first_n_Returns in Hr1, Hr2 by done.
  injection Hr1 as ->. injection Hr2 as ->.
  rewrite !listed_counts by done.
  by rewrite (sorted_counts less_asc (λ a b, a <= b) in_order_asc _ _ _ Hperm1 Hsorted1 Hperm2 Hsorted2).
Qed.

Lemma MostAccessed_distinct c n r1 r2 :
  distinct_counts (accessCount c) →
  MostAccessed c n r1 → MostAccessed c n r2 → r1 = r2.
Proof.
  intros Hdistinct (seen1 & sorted1 & Hseen1 & Hsort1 & ->)
    (seen2 & sorted2 & Hseen2 & Hsort2 & ->).
  destruct (sorted_entries less_desc _ _ _ Hseen1 Hsort1) as [Hperm1 Hsorted1].
  destruct (sorted_entries less_desc _ _ _ Hseen2 Hsort2) as [Hperm2 Hsorted2].
  by rewrite (sorted_unique less_desc (λ a b, b <= a) in_order_desc _ _ _
                Hdistinct Hperm1 Hsorted1 Hperm2 Hsorted2).
Qed.

Lemma LeastAccessed_distinct c n r1 r2 :
  distinct_counts (accessCount c) →
  LeastAccessed c n r1 → LeastAccessed c n r2 → r1 = r2.
Proof.
  intros Hdistinct (seen1 & sorted1 & Hseen1 & Hsort1 & ->)
    (seen2 & sorted2 & Hseen2 & Hsort2 & ->).
  destruct (sorted_entries less_asc _ _ _ Hseen1 Hsort1) as [Hperm1 Hsorted1].
  destruct (sorted_entries less_asc _ _ _ Hseen2 Hsort2) as [Hperm2 Hsorted2].
  by rewrite (sorted_unique less_asc (λ a b, a <= b) in_order_asc _ _ _
                Hdistinct Hperm1 Hsorted1 Hperm2 Hsorted2).
Qed.

End Rankings.

(** ** [Keys] *)

Section KeysFacts.
Context `{Runtime}.
Implicit Types (c : Cache) (r : outcome (list string)).

Lemma Keys_total c :
  Keys c (if makeslice_ok stringSize (Size c)
          then Returns (sort_by String.ltb (append_keys (map_to_list (data c))))
          else Panics).
Proof.
  eexists _, _. split; [apply range_map_map_to_list|]. split; [|done].
  apply (sort_Slice_sort_by String.ltb).
Qed.

Lemma Keys_sorted c seen sorted :
  range_map (data c) seen → sort_Strings (append_keys seen) sorted →
  sorted ≡ₚ (map_to_list (data c)).*1 ∧ StronglySorted (in_order String.ltb) sorted.
Proof.
  unfold range_map. intros Hseen [Hperm Hsorted]. split; [|done].
  by rewrite <-Hperm, append_keys_fmap, Hseen.
Qed.

Lemma Keys_determined c r1 r2 : Keys c r1 → Keys c r2 → r1 = r2.
Proof.
  intros (seen1 & sorted1 & Hseen1 & Hsort1 & ->) (seen2 & sorted2 & Hseen2 & Hsort2 & ->).
  destruct (Keys_sorted _ _ _ Hseen1 Hsort1) as [Hperm1 Hsorted1].
  destruct (Keys_sorted _ _ _ Hseen2 Hsort2) as [Hperm2 Hsorted2].
  assert (sorted1 = sorted2) as ->; [|done].
  apply (StronglySorted_unique (in_order String.ltb)); [done..|].
  by rewrite Hperm1, Hperm2.
Qed.

Lemma StronglySorted_strict {A : Type} (R : relation A) (l : list A) :
  StronglySorted R l → NoDup l → StronglySorted (λ a b, R a b ∧ a ≠ b) l.
Proof.
  induction 1 as [|x l Hl IH Hx]; intros Hnodup; [constructor|].
  apply NoDup_cons in Hnodup as [Hnotin Hnodup].
  constructor; [by apply IH|].
  apply Forall_forall. intros y Hy. split.
  - by eapply Forall_forall in Hx.
  - by intros ->.
Qed.

Lemma StronglySorted_impl {A : Type} (R1 R2 : relation A) (l : list A) :
  (∀ a b, R1 a b → R2 a b) → StronglySorted R1 l → StronglySorted R2 l.
Proof.
  intros Himpl. induction 1 as [|x l Hl IH Hx]; constructor; [done|].
  eapply Forall_impl; [done|]. intros y. apply Himpl.
Qed.

Lemma Keys_lexicographic c keys :
  Keys c (Returns keys) →
  StronglySorted (λ a b, (a <? b)%string = true) keys ∧
  ∀ k, k ∈ keys ↔ is_Some (data c !! k).
Proof.
  intros (seen & sorted & Hseen & Hsort & Hr).
  destruct (Keys_sorted _ _ _ Hseen Hsort) as [Hperm Hsorted].
  destruct (makeslice_ok stringSize (Size c)); [|done]. injection Hr as ->.
  split.
  - apply (StronglySorted_impl (λ a b, in_order String.ltb a b ∧ a ≠ b)).
    + intros a b. apply ltb_string.
    + apply StronglySorted_strict; [done|].
      rewrite Hperm. apply NoDup_fst_map_to_list.
  - intros k. rewrite Hperm, list_elem_of_fmap. split.
    + intros ([k' v] & -> & Hin). apply elem_of_map_to_list in Hin. eauto.
    + intros [v Hv]. exists (k, v). split; [done|]. by apply elem_of_map_to_list.
Qed.

Lemma Keys_empty c r : data c = ∅ → Keys c r ↔ r = Returns [].
Proof.
  intros Hdata.
  assert (Hsize : makeslice_ok stringSize (Size c) = true).
  { unfold Size. rewrite Hdata, map_size_empty. apply makeslice_ok_0. }
  split.
  - intros (seen & sorted & Hseen & Hsort & ->). rewrite Hsize.
    unfold range_map in Hseen. rewrite Hdata, map_to_list_empty in Hseen.
    apply Permutation_nil_r in Hseen as ->.
    by apply sort_Slice_nil in Hsort as ->.
  - intros ->. pose proof (Keys_total c) as Hkeys.
    by rewrite Hsize, Hdata, map_to_list_empty in Hkeys.
Qed.

End KeysFacts.

(** ** Conversion of an [int] to [float64] *)

Section Conversion.













End Conversion.

(** ** [Clear] and [Stats] *)

(** C8: after [Clear], whatever came before, both maps are empty and both
    counters are 0, so [Size] is 0, [Stats] is (0, 0, 0) and [Keys] returns
    the empty sequence and nothing else. *)
Theorem Clear_resets `{Runtime} (ops : list op) :
  data (Clear (run ops NewCache)) = ∅ ∧
  accessCount (Clear (run ops NewCache)) = ∅ ∧
  hits (Clear (run ops NewCache)) = 0 ∧
  misses (Clear (run ops NewCache)) = 0 ∧
  Size (Clear (run ops NewCache)) = 0 ∧
  Stats (Clear (run ops NewCache)) = (0, 0, 0%float) ∧
  ∀ r, Keys (Clear (run ops NewCache)) r ↔ r = Returns [].
Proof.
  repeat split; try done.
  - by apply Keys_empty.
  - by apply Keys_empty.
Qed.


(** ** What the queries leave open *)

(** C10, as far as the code goes: [Keys] has one outcome per state, in
    strictly increasing lexicographic order and holding exactly the keys of
    the cache. The rankings break no ties: two calls on one state return
    sequences that carry the same access counts position by position, and
    the same sequence when no two keys share an access count. *)
Theorem queries_determined_up_to_ties `{Runtime} (c : Cache) (n : Z) :
  (∀ r1 r2, Keys c r1 → Keys c r2 → r1 = r2) ∧
  (∀ keys, Keys c (Returns keys) →
           StronglySorted (λ a b, (a <? b)%string = true) keys ∧
           ∀ k, k ∈ keys ↔ is_Some (data c !! k)) ∧
  (∀ l1 l2, MostAccessed c n (Returns l1) → MostAccessed c n (Returns l2) →
            (λ k, accessCount c !! k) <$> l1 = (λ k, accessCount c !! k) <$> l2) ∧
  (∀ l1 l2, LeastAccessed c n (Returns l1) → LeastAccessed c n (Returns l2) →
            (λ k, accessCount c !! k) <$> l1 = (λ k, accessCount c !! k) <$> l2) ∧
  (distinct_counts (accessCount c) →
   (∀ r1 r2, MostAccessed c n r1 → MostAccessed c n r2 → r1 = r2) ∧
   (∀ r1 r2, LeastAccessed c n r1 → LeastAccessed c n r2 → r1 = r2)).
Proof.
  split; [apply Keys_determined|].
  split; [apply Keys_lexicographic|].
  split; [apply MostAccessed_counts|].
  split; [apply LeastAccessed_counts|].
  intros Hdistinct. split; intros r1 r2.
  - by apply MostAccessed_distinct.
  - by apply LeastAccessed_distinct.
Qed.

(** C10 fails as stated: with two keys that were never read, [MostAccessed(2)]
    may return them in either order, according to the order in which the
    [range] loop happens to visit the map. *)
Lemma rankings_follow_iteration_order :
  @MostAccessed linux_amd64 (run [OpSet "a" "1"; OpSet "b" "2"] NewCache) 2
    (Returns ["a"; "b"]) ∧
  @MostAccessed linux_amd64 (run [OpSet "a" "1"; OpSet "b" "2"] NewCache) 2
    (Returns ["b"; "a"]) ∧
  Returns ["a"; "b"] ≠ (Returns ["b"; "a"] : outcome (list string)).
Proof.
  assert (Hentries :
    map_to_list (accessCount (run [OpSet "a" "1"; OpSet "b" "2"] NewCache))
    ≡ₚ [("a", 0); ("b", 0)]).
  { apply NoDup_Permutation.
    - apply NoDup_map_to_list.
    - apply NoDup_cons. split; [|apply NoDup_singleton].
      rewrite list_elem_of_singleton. discriminate.
    - intros [k a]. rewrite elem_of_map_to_list.
      change (accessCount (run [OpSet "a" "1"; OpSet "b" "2"] NewCache))
        with (<["b" := 0]> (<["a" := 0]> (∅ : gmap string Z))).
      rewrite !lookup_insert_Some, lookup_empty, !elem_of_cons, elem_of_nil.
      split.
      + intros [[<- <-]|[_ [[<- <-]|[_ ?]]]]; [by right; left|by left|done].
      + intros [[= -> ->]|[[= -> ->]|[]]]; [right; split; [done|by left]|by left]. }
  split; [|split; [|done]].
  - exists [("a", 0); ("b", 0)], [KeyCount "a" 0; KeyCount "b" 0].
    split; [by unfold range_map|]. split; [|done].
    split; [done|]. repeat constructor.
  - exists [("b", 0); ("a", 0)], [KeyCount "b" 0; KeyCount "a" 0].
    split; [unfold range_map; rewrite Hentries; apply perm_swap|]. split; [|done].
    split; [done|]. repeat constructor.
Qed.

(** ** The capacity hint *)

(** C1 at [n = MaxInt]: [make([]string, 0, n)] asks for more than any
    allocator serves, so both rankings panic, whatever the cache holds. *)
Theorem rankings_panic_at_MaxInt `{Runtime} (c : Cache) (r : outcome (list string)) :
  (MostAccessed c GoInt.MaxInt r ↔ r = Panics) ∧
  (LeastAccessed c GoInt.MaxInt r ↔ r = Panics).
Proof.
  split.
  - apply MostAccessed_Panics, makeslice_MaxInt.
  - apply LeastAccessed_Panics, makeslice_MaxInt.
Qed.

(** C2 at [n = -1]: [make([]string, 0, n)] has a length above its capacity,
    so both rankings panic, whatever the cache holds. *)
Theorem rankings_panic_at_minus_1 `{Runtime} (c : Cache) (r : outcome (list string)) :
  (MostAccessed c (-1) r ↔ r = Panics) ∧
  (LeastAccessed c (-1) r ↔ r = Panics).
Proof.
  split.
  - apply MostAccessed_Panics, makeslice_negative. lia.
  - apply LeastAccessed_Panics, makeslice_negative. lia.
Qed.

(** X12: for a capacity that [make] accepts, each ranking returns, and what
    it returns is a ranking of the [n] best keys (of all keys when there are
    no more than [n]); at [n = 0] that is the empty sequence. *)
Theorem rankings_within_capacity `{Runtime} (c : Cache) (n : Z) :
  makeslice_ok stringSize n = true →
  (∃ keys, MostAccessed c n (Returns keys)) ∧
  (∃ keys, LeastAccessed c n (Returns keys)) ∧
  (∀ r, MostAccessed c n r →
        ∃ keys, r = Returns keys ∧ ranking (λ a b, b <= a) (accessCount c) n keys) ∧
  (∀ r, LeastAccessed c n r →
        ∃ keys, r = Returns keys ∧ ranking (λ a b, a <= b) (accessCount c) n keys).
Proof.
  intros Hn. repeat split.
  - eexists. erewrite <-first_n_Returns by done. apply MostAccessed_total.
  - eexists. erewrite <-first_n_Returns by done. apply LeastAccessed_total.
  - intros r. by apply MostAccessed_ranks.
  - intros r. by apply LeastAccessed_ranks.
Qed.

Lemma rankings_at_0 `{Runtime} (c : Cache) (r : outcome (list string)) :
  (MostAccessed c 0 r ↔ r = Returns []) ∧ (LeastAccessed c 0 r ↔ r = Returns []).
Proof.
  split; split.
  - intros (seen & sorted & _ & _ & ->). by rewrite first_n_Returns by apply makeslice_ok_0.
  - intros ->. pose proof (MostAccessed_total c 0) as Hr.
    by rewrite first_n_Returns in Hr by apply makeslice_ok_0.
  - intros (seen & sorted & _ & _ & ->). by rewrite first_n_Returns by apply makeslice_ok_0.
  - intros ->. pose proof (LeastAccessed_total c 0) as Hr.
    by rewrite first_n_Returns in Hr by apply makeslice_ok_0.
Qed.

(** ** Runs on concrete caches *)

Section Scenarios.

Example demo_Size : Size (run demo NewCache) = 5.
Proof. reflexivity. Qed.

Example demo_Keys r :
  @Keys linux_amd64 (run demo NewCache) r ↔
  r = Returns ["config:language"; "config:theme"; "user:1"; "user:2"; "user:3"].
Proof.
  pose proof (@Keys_total linux_amd64 (run demo NewCache)) as Hkeys.
  vm_compute in Hkeys. split.
  - intros Hr. by eapply Keys_determined.
  - by intros ->.
Qed.

(** The entries of the demo's count map, spelled out. *)
Lemma demo_counts k a :
  accessCount (run demo NewCache) !! k = Some a →
  (k, a) ∈ [("user:1", 10); ("user:2", 5); ("user:3", 1);
            ("config:theme", 2); ("config:language", 1)].
Proof.
  intros Hk. apply elem_of_map_to_list in Hk.
  replace (map_to_list (accessCount (run demo NewCache)))
    with [("config:language", 1); ("config:theme", 2); ("user:3", 1);
          ("user:1", 10); ("user:2", 5)] in Hk by (by vm_compute).
  revert Hk. rewrite !elem_of_cons. tauto.
Qed.

Example demo_MostAccessed r :
  @MostAccessed linux_amd64 (run demo NewCache) 3 r ↔
  r = Returns ["user:1"; "user:2"; "config:theme"].
Proof.
  pose proof (@MostAccessed_total linux_amd64 (run demo NewCache) 3) as Hmost.
  vm_compute in Hmost.
  split; [|by intros ->].
  intros Hr.
  destruct (@MostAccessed_ranks linux_amd64 (run demo NewCache) 3 r eq_refl Hr)
    as (keys & -> & _). f_equal.
  pose proof (@MostAccessed_counts linux_amd64 _ _ _ _ Hr Hmost) as Hcounts.
  assert (Hlen : length keys = 3%nat).
  { apply (f_equal length) in Hcounts. rewrite !length_fmap in Hcounts. exact Hcounts. }
  clear Hr Hmost.
  assert (H10 : accessCount (run demo NewCache) !! "user:1" = Some 10)
    by (vm_compute; reflexivity).
  assert (H5 : accessCount (run demo NewCache) !! "user:2" = Some 5)
    by (vm_compute; reflexivity).
  assert (H2' : accessCount (run demo NewCache) !! "config:theme" = Some 2)
    by (vm_compute; reflexivity).
  pose proof demo_counts as Hdemo.
  set (m := accessCount (run demo NewCache)) in *. clearbody m.
  destruct keys as [|k1 [|k2 [|k3 [|k4 keys]]]]; try discriminate Hlen.
  cbn [fmap list_fmap] in Hcounts. rewrite H10, H5, H2' in Hcounts.
  injection Hcounts as H1 H2 H3.
  apply Hdemo in H1, H2, H3.
  rewrite !elem_of_cons, elem_of_nil in H1, H2, H3.
  destruct H1 as [[= ->]|[[= _ ?]|[[= _ ?]|[[= _ ?]|[[= _ ?]|[]]]]]]; try discriminate.
  destruct H2 as [[= _ ?]|[[= ->]|[[= _ ?]|[[= _ ?]|[[= _ ?]|[]]]]]]; try discriminate.
  destruct H3 as [[= _ ?]|[[= _ ?]|[[= _ ?]|[[= ->]|[[= _ ?]|[]]]]]]; try discriminate.
  reflexivity.
Qed.

(** Scenario A of the specification; the rate is 66.67 to two decimals. *)
Example scenario_A_Stats :
  Stats (run [OpSet "a" "1"; OpSet "b" "2"; OpGet "a"; OpGet "a"; OpGet "a";
              OpGet "b"; OpGet "c"; OpGet "c"] NewCache)
  = (4, 2, 0x1.0aaaaaaaaaaaap+6%float).
Proof. reflexivity. Qed.

(** Scenario D of the specification. *)
Example scenario_D :
  (Get (run [OpSet "k" "v1"; OpSet "k" "v2"] NewCache) "k").1 = ("v2"%string, true).
Proof. reflexivity. Qed.

End Scenarios.

(** * Further properties of the cache *)

(** ** The two maps *)

Lemma Get_found (c : Cache) (k : string) :
  (Get c k).1.2 = true ↔ is_Some (data c !! k).
Proof.
  unfold Get. destruct (data c !! k); simpl; split; eauto; [done|by intros [? ?]].
Qed.

(** X1: in every state a history reaches, the value map and the count map
    hold the same keys: [Size] is also the number of access counts, and
    [Get] finds exactly the keys that have an access count. *)
Theorem maps_agree (c : Cache) :
  reachable c →
  dom (data c) = dom (accessCount c) ∧
  Size c = Z.of_nat (size (accessCount c)) ∧
  ∀ k, (Get c k).1.2 = true ↔ is_Some (accessCount c !! k).
Proof.
  intros Hwf%wf_reachable.
  assert (Hdom : dom (data c) = dom (accessCount c)).
  { apply set_eq. intros k. rewrite !elem_of_dom. apply Hwf. }
  split; [done|]. split.
  - unfold Size. by rewrite <-(size_dom (data c)), Hdom, size_dom.
  - intros k. rewrite Get_found. apply Hwf.
Qed.

Lemma maps_agree_witness :
  dom (data (run [OpSet "a" "1"; OpGet "a"; OpGet "b"; OpSet "b" "2"; OpDelete "a"] NewCache))
  = dom (accessCount
           (run [OpSet "a" "1"; OpGet "a"; OpGet "b"; OpSet "b" "2"; OpDelete "a"] NewCache)).
Proof.
  apply (maps_agree
           (run [OpSet "a" "1"; OpGet "a"; OpGet "b"; OpSet "b" "2"; OpDelete "a"] NewCache)).
  by eexists.
Defined.

(** ** Values *)

Section Values.
Implicit Types (c : Cache) (k : string).

Lemma data_step c o :
  data (step c o) =
    match o with
    | OpSet k v => <[k := v]> (data c)
    | OpGet _ => data c
    | OpDelete k => delete k (data c)
    | OpClear => ∅
    end.
Proof.
  destruct o; simpl; [apply Set_data|apply Get_data|apply Delete_data|done].
Qed.

Lemma data_run ops c1 c2 : data c1 = data c2 → data (run ops c1) = data (run ops c2).
Proof.
  revert c1 c2. induction ops as [|o ops IH]; intros c1 c2 Hdata; [done|].
  rewrite !run_cons. apply IH. by rewrite !data_step, Hdata.
Qed.

Lemma value_kept k v mid :
  Forall (λ o, sets k o = false ∧ removes k o = false) mid →
  ∀ c, data c !! k = Some v → data (run mid c) !! k = Some v.
Proof.
  induction 1 as [|o mid [Hset Hrem] _ IH]; intros c Hk; [done|].
  rewrite run_cons. apply IH. rewrite data_step.
  destruct o as [k' v'|k'|k'|]; simpl in *; try done.
  - apply bool_decide_eq_false in Hset. by rewrite lookup_insert_ne.
  - apply bool_decide_eq_false in Hrem. by rewrite lookup_delete_ne.
Qed.

End Values.

(** X2: the value of the last [Set] is the one [Get] returns: after
    [Set(k, v)] and any operations that neither set [k] again nor remove
    it, [Get(k)] returns [(v, true)], whatever the state before. *)
Theorem last_Set_wins (c : Cache) (k v : string) (mid : list op) :
  Forall (λ o, sets k o = false ∧ removes k o = false) mid →
  (Get (run (OpSet k v :: mid) c) k).1 = (v, true).
Proof.
  intros Hmid. rewrite run_cons. simpl step.
  erewrite Get_hit; [done|].
  apply value_kept; [done|]. by rewrite Set_data, lookup_insert_eq.
Qed.

Lemma last_Set_wins_witness :
  (Get (run (OpSet "k" "v" :: [OpGet "k"; OpSet "j" "w"; OpDelete "j"; OpGet "x"])
          (run [OpSet "k" "old"] NewCache)) "k").1
  = ("v"%string, true).
Proof.
  apply (last_Set_wins (run [OpSet "k" "old"] NewCache) "k" "v"
           [OpGet "k"; OpSet "j" "w"; OpDelete "j"; OpGet "x"]).
  repeat constructor.
Defined.

(** X3: [Get] never changes what is stored: a history and the same history
    without its [Get] calls leave the same value map, hence the same [Size]
    and the same answer of a following [Get]. *)
Theorem Gets_leave_values (ops : list op) (c : Cache) :
  data (run ops c) = data (run (filter (λ o, is_Get o = false) ops) c) ∧
  Size (run ops c) = Size (run (filter (λ o, is_Get o = false) ops) c) ∧
  ∀ k, (Get (run ops c) k).1
       = (Get (run (filter (λ o, is_Get o = false) ops) c) k).1.
Proof.
  assert (Hdata : data (run ops c)
                  = data (run (filter (λ o, is_Get o = false) ops) c)).
  { revert c. induction ops as [|o ops IH]; intros c; [done|].
    rewrite filter_cons. destruct (decide (is_Get o = false)) as [Ho|Ho].
    - rewrite !run_cons. apply IH.
    - rewrite run_cons, <-IH. apply data_run.
      destruct o; try done. apply Get_data. }
  split; [done|]. split.
  - unfold Size. by rewrite Hdata.
  - intros k. unfold Get. rewrite <-Hdata. by destruct (data (run ops c) !! k).
Qed.

(** X4: a deleted key is gone until it is set again: after [Delete(k)] and
    any operations other than [Set(k, _)], [Get(k)] returns [("", false)],
    and neither before nor after that miss does [k] have an access count. *)
Theorem Get_after_Delete_misses (c : Cache) (k : string) (mid : list op) :
  reachable c →
  Forall (λ o, sets k o = false) mid →
  (Get (run (OpDelete k :: mid) c) k).1 = (""%string, false) ∧
  accessCount (run (OpDelete k :: mid) c) !! k = None ∧
  accessCount (Get (run (OpDelete k :: mid) c) k).2 !! k = None.
Proof.
  intros Hwf%wf_reachable Hmid. rewrite run_cons. simpl step.
  destruct (Delete_removes c k Hwf) as [Hd Ha].
  destruct (absent_run k mid Hmid _ Hd Ha) as [Hd' Ha'].
  rewrite (Get_miss _ _ Hd'). done.
Qed.

Lemma Get_after_Delete_misses_witness :
  (Get (run (OpDelete "k" :: [OpGet "k"; OpSet "j" "w"; OpDelete "k"])
          (run [OpSet "k" "v"; OpGet "k"] NewCache)) "k").1
  = (""%string, false).
Proof.
  apply (Get_after_Delete_misses (run [OpSet "k" "v"; OpGet "k"] NewCache) "k"
           [OpGet "k"; OpSet "j" "w"; OpDelete "k"]).
  - by eexists.
  - repeat constructor.
Defined.

(** ** [Size] *)

(** X5: [Size] is never negative and moves by single keys: [Set] adds one
    when the key is new and nothing when it is there, [Delete] takes one
    off when the key is there and nothing when it is not, [Get] leaves
    [Size] alone. *)
Theorem Size_changes (c : Cache) (k v : string) :
  0 <= Size c ∧
  (data c !! k = None → Size (Set_ c k v) = Size c + 1) ∧
  (is_Some (data c !! k) → Size (Set_ c k v) = Size c) ∧
  (is_Some (data c !! k) → Size (Delete c k).2 = Size c - 1) ∧
  (data c !! k = None → Size (Delete c k).2 = Size c) ∧
  Size (Get c k).2 = Size c.
Proof.
  unfold Size. rewrite Set_data, Delete_data, Get_data.
  split; [lia|]. split; [|split; [|split; [|split]]].
  - intros Hk. rewrite map_size_insert_None by done. lia.
  - intros Hk. by rewrite map_size_insert_Some.
  - intros Hk. rewrite map_size_delete_Some by done.
    assert (size (data c) ≠ 0%nat); [|lia].
    intros Hempty%map_size_empty_iff. rewrite Hempty, lookup_empty in Hk.
    by destruct Hk.
  - intros Hk. by rewrite map_size_delete_None.
  - done.
Qed.

(** ** Keys on their own *)

(** X7: what is done to other keys does not reach [k]: over any operations
    that neither name [k] nor clear the cache, the value and the access
    count of [k] stay as they are. *)
Theorem other_keys_untouched (c : Cache) (k : string) (ops : list op) :
  Forall (λ o, touches k o = false) ops →
  data (run ops c) !! k = data c !! k ∧
  accessCount (run ops c) !! k = accessCount c !! k.
Proof.
  intros Hops. revert c. induction Hops as [|o ops Ho _ IH]; intros c; [done|].
  rewrite run_cons. destruct (IH (step c o)) as [-> ->].
  destruct o as [k' v|k'|k'|]; simpl in *; try done;
    apply bool_decide_eq_false in Ho.
  - by rewrite Set_data, lookup_insert_ne, Set_count_other.
  - by rewrite Get_data, Get_count_other.
  - by rewrite Delete_data, lookup_delete_ne, Delete_count_other.
Qed.

Lemma other_keys_untouched_witness :
  accessCount (run [OpGet "b"; OpSet "c" "3"; OpDelete "b"; OpGet "z"]
                 (run [OpSet "a" "1"; OpSet "b" "2"; OpGet "a"] NewCache)) !! "a"
  = accessCount (run [OpSet "a" "1"; OpSet "b" "2"; OpGet "a"] NewCache) !! "a".
Proof.
  apply (other_keys_untouched (run [OpSet "a" "1"; OpSet "b" "2"; OpGet "a"] NewCache)
           "a" [OpGet "b"; OpSet "c" "3"; OpDelete "b"; OpGet "z"]).
  repeat constructor.
Defined.

(** X8: [Delete] undoes the [Set] that created a key: from a reachable
    state that does not hold [k], [Set(k, v)] followed by [Delete(k)]
    answers true and gives back the very same state. *)
Theorem Delete_undoes_Set (c : Cache) (k v : string) :
  reachable c → data c !! k = None →
  Delete (Set_ c k v) k = (true, c).
Proof.
  intros Hwf%wf_reachable Hk.
  pose proof (wf_absent c k Hwf Hk) as Ha.
  unfold Delete. rewrite Set_data, lookup_insert_eq, Set_hits, Set_misses.
  rewrite Set_count_new by done.
  rewrite !delete_insert_eq, !delete_id by done. by destruct c.
Qed.

Lemma Delete_undoes_Set_witness :
  Delete (Set_ (run [OpSet "a" "1"; OpGet "a"] NewCache) "k" "v") "k"
  = (true, run [OpSet "a" "1"; OpGet "a"] NewCache).
Proof.
  apply (Delete_undoes_Set (run [OpSet "a" "1"; OpGet "a"] NewCache) "k" "v").
  - by eexists.
  - reflexivity.
Defined.

(** ** [Keys], [Size] and [Get] together *)

Section KeysAndSize.
Context `{Runtime}.

Lemma elem_of_map_keys {V : Type} (m : gmap string V) (k : string) :
  k ∈ (map_to_list m).*1 ↔ is_Some (m !! k).
Proof.
  rewrite list_elem_of_fmap. split.
  - intros ([k' v] & -> & Hin). apply elem_of_map_to_list in Hin. eauto.
  - intros [v Hv]. exists (k, v). split; [done|]. by apply elem_of_map_to_list.
Qed.

Lemma Keys_Returns c keys :
  Keys c (Returns keys) →
  makeslice_ok stringSize (Size c) = true ∧ keys ≡ₚ (map_to_list (data c)).*1.
Proof.
  intros (seen & sorted & Hseen & Hsort & Hr).
  destruct (Keys_sorted _ _ _ Hseen Hsort) as [Hperm _].
  destruct (makeslice_ok stringSize (Size c)); [|done]. by injection Hr as ->.
Qed.

End KeysAndSize.

(** X6: [Keys] returns exactly when a slice for [Size] strings can be
    made, and what it returns lists every key once: as many keys as [Size]
    says, no key twice, and a key is listed exactly when [Get] finds it. *)
Theorem Keys_lists_the_keys `{Runtime} (c : Cache) :
  ((∃ keys, Keys c (Returns keys)) ↔ stringSize * Size c <= maxAlloc) ∧
  ∀ keys, Keys c (Returns keys) →
          NoDup keys ∧ Z.of_nat (length keys) = Size c ∧
          ∀ k, k ∈ keys ↔ (Get c k).1.2 = true.
Proof.
  split.
  - split.
    + intros [keys [Hok _]%Keys_Returns]. by apply makeslice_ok_spec in Hok as [_ ?].
    + intros Hfits. pose proof (Keys_total c) as Hkeys.
      assert (makeslice_ok stringSize (Size c) = true) as Hok.
      { apply makeslice_ok_spec. unfold Size in *. lia. }
      rewrite Hok in Hkeys. eauto.
  - intros keys [_ Hperm]%Keys_Returns. split; [|split].
    + rewrite Hperm. apply NoDup_fst_map_to_list.
    + unfold Size. by rewrite Hperm, length_fmap, length_map_to_list.
    + intros k. by rewrite Hperm, elem_of_map_keys, Get_found.
Qed.

(** ** Hits and access counts *)

Section Totals.
Import GoInt GoIntFacts.
Implicit Types (m : gmap string Z).

Lemma total_accesses_empty : total_accesses ∅ = 0.
Proof. apply map_fold_empty. Qed.

Lemma total_accesses_insert_new m k a :
  m !! k = None → total_accesses (<[k := a]> m) = a + total_accesses m.
Proof.
  intros Hk. unfold total_accesses. rewrite map_fold_insert_L; [done| |done].
  intros. lia.
Qed.

Lemma total_accesses_delete m k a :
  m !! k = Some a → total_accesses m = a + total_accesses (delete k m).
Proof.
  intros Hk. rewrite <-(total_accesses_insert_new (delete k m) k a)
    by apply lookup_delete_eq.
  by rewrite insert_delete_eq, insert_id.
Qed.

Lemma total_accesses_insert m k a b :
  m !! k = Some a → total_accesses (<[k := b]> m) = total_accesses m - a + b.
Proof.
  intros Hk. rewrite <-insert_delete_eq, total_accesses_insert_new
    by apply lookup_delete_eq.
  rewrite (total_accesses_delete m k a Hk). lia.
Qed.

Lemma total_accesses_nonneg m :
  (∀ k a, m !! k = Some a → 0 <= a) → 0 <= total_accesses m.
Proof.
  induction m as [|k a m Hk IH] using map_ind; intros Hall.
  - by rewrite total_accesses_empty.
  - rewrite total_accesses_insert_new by done.
    assert (0 <= a) by (apply (Hall k); apply lookup_insert_eq).
    assert (0 <= total_accesses m); [|lia].
    apply IH. intros k' a' Hk'. apply (Hall k').
    rewrite lookup_insert_ne; [done|]. intros ->. congruence.
Qed.

Lemma deleted_since_clear_snoc ops o :
  deleted_since_clear (ops ++ [o]) =
    match o with
    | OpDelete _ => true
    | OpClear => false
    | _ => deleted_since_clear ops
    end.
Proof. unfold deleted_since_clear. by rewrite foldl_app. Qed.

(** What the counters hold while no more than [MaxInt] calls of [Get] were
    made since the last [Clear]. *)
Lemma accesses_exact ops :
  gets_since_clear ops <= MaxInt →
  (∀ k a, accessCount (run ops NewCache) !! k = Some a → 0 <= a) ∧
  0 <= hits (run ops NewCache) <= gets_since_clear ops ∧
  total_accesses (accessCount (run ops NewCache)) <= hits (run ops NewCache) ∧
  (deleted_since_clear ops = false →
   total_accesses (accessCount (run ops NewCache)) = hits (run ops NewCache)).
Proof.
  induction ops as [|o ops IH] using rev_ind; intros Hbound.
  { simpl. rewrite total_accesses_empty. by repeat split. }
  pose proof (wf_run ops NewCache wf_NewCache) as Hwf.
  pose proof (gets_since_clear_nonneg ops) as Hgets.
  rewrite gets_since_clear_snoc in Hbound |- *.
  rewrite run_snoc, deleted_since_clear_snoc.
  rewrite MaxInt_eq in Hbound.
  destruct o as [k v|k|k|]; simpl step.
  - destruct (IH ltac:(rewrite MaxInt_eq; lia)) as (Hpos & Hhits & Hle & Heq).
    rewrite Set_hits. unfold Set_.
    destruct (accessCount (run ops NewCache) !! k) eqn:Hk; simpl; [done|].
    rewrite total_accesses_insert_new by done. repeat split; try lia.
    + intros k' a'. destruct (decide (k = k')) as [->|Hne].
      * rewrite lookup_insert_eq. by intros [= <-].
      * rewrite lookup_insert_ne by done. apply Hpos.
    + intros Hd. specialize (Heq Hd). lia.
  - destruct (IH ltac:(rewrite MaxInt_eq; lia)) as (Hpos & Hhits & Hle & Heq).
    unfold Get. destruct (data (run ops NewCache) !! k) eqn:Hk; simpl;
      [|repeat split; try done; lia].
    destruct (wf_present _ k Hwf) as [a Ha]; [by eexists|].
    rewrite Ha. simpl.
    assert (0 <= a) by by eapply Hpos.
    assert (a <= total_accesses (accessCount (run ops NewCache))).
    { rewrite (total_accesses_delete _ k a Ha).
      assert (0 <= total_accesses (delete k (accessCount (run ops NewCache))));
        [|lia].
      apply total_accesses_nonneg. intros k' a' [_ Hk']%lookup_delete_Some.
      by eapply Hpos. }
    rewrite !incr_small by (rewrite MinInt_eq, MaxInt_eq; lia).
    rewrite (total_accesses_insert _ k a) by done. repeat split; try lia.
    + intros k' a'. destruct (decide (k = k')) as [->|Hne].
      * rewrite lookup_insert_eq. intros [= <-]. lia.
      * rewrite lookup_insert_ne by done. apply Hpos.
    + intros Hd. specialize (Heq Hd). lia.
  - destruct (IH ltac:(rewrite MaxInt_eq; lia)) as (Hpos & Hhits & Hle & Heq).
    rewrite Delete_hits. unfold Delete.
    destruct (data (run ops NewCache) !! k) eqn:Hk; simpl;
      [|repeat split; try done; lia].
    destruct (wf_present _ k Hwf) as [a Ha]; [by eexists|].
    assert (0 <= a) by by eapply Hpos.
    pose proof (total_accesses_delete _ k a Ha). repeat split; try done; try lia.
    intros k' a' [_ Hk']%lookup_delete_Some. by eapply Hpos.
  - unfold Clear. simpl. rewrite total_accesses_empty. by repeat split.
Qed.

Lemma tally_snoc ops o : tally (ops ++ [o]) = tally_step (tally ops) o.
Proof. unfold tally. by rewrite foldl_app. Qed.

Lemma tally_exact ops :
  (tally ops).1.1 = run ops NewCache ∧
  0 <= (tally ops).1.2 ∧ 0 <= (tally ops).2 ∧
  (tally ops).1.2 + (tally ops).2 = gets_since_clear ops ∧
  hits (run ops NewCache) = wrap (tally ops).1.2 ∧
  misses (run ops NewCache) = wrap (tally ops).2.
Proof.
  induction ops as [|o ops IH] using rev_ind; [by repeat split|].
  rewrite tally_snoc, run_snoc, gets_since_clear_snoc.
  destruct (tally ops) as [[c found] lost]. simpl in IH.
  destruct IH as (-> & Hfound & Hlost & Hsum & Hhits & Hmisses).
  destruct o as [k v|k|k|]; simpl.
  - by rewrite Set_hits, Set_misses.
  - unfold Get. destruct (data (run ops NewCache) !! k); simpl.
    + rewrite Hhits, incr_wrap. repeat split; try done; lia.
    + rewrite Hmisses, incr_wrap. repeat split; try done; lia.
  - by rewrite Delete_hits, Delete_misses.
  - by repeat split.
Qed.

End Totals.

(** X9: while no more than [MaxInt] calls of [Get] were made since the
    last [Clear], no access count is negative or above [hits], the access
    counts together never exceed [hits], and they add up to [hits] exactly
    as long as nothing was deleted since that [Clear]. *)
Theorem hits_cover_access_counts (ops : list op) :
  gets_since_clear ops <= GoInt.MaxInt →
  (∀ k a, accessCount (run ops NewCache) !! k = Some a →
          0 <= a <= hits (run ops NewCache)) ∧
  total_accesses (accessCount (run ops NewCache)) <= hits (run ops NewCache) ∧
  (deleted_since_clear ops = false →
   total_accesses (accessCount (run ops NewCache)) = hits (run ops NewCache)).
Proof.
  intros Hbound. destruct (accesses_exact ops Hbound) as (Hpos & _ & Hle & Heq).
  split; [|done]. intros k a Ha. split; [by eapply Hpos|].
  rewrite (total_accesses_delete _ k a Ha) in Hle.
  assert (0 <= total_accesses (delete k (accessCount (run ops NewCache))));
    [|lia].
  apply total_accesses_nonneg. intros k' a' [_ Hk']%lookup_delete_Some.
  by eapply Hpos.
Qed.

Lemma hits_cover_access_counts_witness :
  total_accesses
    (accessCount (run [OpSet "a" "1"; OpSet "b" "2"; OpGet "a"; OpGet "b"; OpGet "a";
                       OpGet "c"] NewCache))
  = hits (run [OpSet "a" "1"; OpSet "b" "2"; OpGet "a"; OpGet "b"; OpGet "a";
               OpGet "c"] NewCache).
Proof.
  apply (hits_cover_access_counts
           [OpSet "a" "1"; OpSet "b" "2"; OpGet "a"; OpGet "b"; OpGet "a"; OpGet "c"]).
  - vm_compute. discriminate.
  - reflexivity.
Defined.

Lemma counters_tally_exact_pair (ops : list op) :
  gets_since_clear ops <= GoInt.MaxInt →
  hits (run ops NewCache) = (tally ops).1.2 ∧
  misses (run ops NewCache) = (tally ops).2.
Proof.
  intros Hbound.
  destruct (tally_exact ops) as (_ & Hfound & Hlost & Hsum & -> & ->).
  rewrite !GoIntFacts.wrap_id; [done| |];
    unfold GoInt.in_range; rewrite GoIntFacts.MinInt_eq; lia.
Qed.

(** X10: while no more than [MaxInt] calls of [Get] were made since the
    last [Clear], [hits] is the number of those calls that answered true
    and [misses] the number of those that answered false. *)
Theorem counters_tally_the_answers (ops : list op) :
  gets_since_clear ops <= GoInt.MaxInt →
  hits (run ops NewCache) = (tally ops).1.2 ∧
  misses (run ops NewCache) = (tally ops).2.
Proof. apply counters_tally_exact_pair. Qed.

Lemma counters_tally_the_answers_witness :
  hits (run [OpSet "a" "1"; OpGet "a"; OpGet "b"; OpDelete "a"; OpGet "a"] NewCache) = 1 ∧
  misses (run [OpSet "a" "1"; OpGet "a"; OpGet "b"; OpDelete "a"; OpGet "a"] NewCache) = 2.
Proof.
  apply (counters_tally_the_answers
           [OpSet "a" "1"; OpGet "a"; OpGet "b"; OpDelete "a"; OpGet "a"]).
  vm_compute. discriminate.
Defined.

(** ** The rankings and the rest of the cache *)

Section RankingsAndKeys.
Context `{Runtime}.
Implicit Types (c : Cache) (n : Z).

Lemma MostAccessed_Returns c n keys :
  MostAccessed c n (Returns keys) →
  makeslice_ok stringSize n = true ∧
  ∃ sorted, sorted ≡ₚ entries (accessCount c) ∧
            StronglySorted (in_order less_desc) sorted ∧
            keys = key <$> take (Z.to_nat n) sorted.
Proof.
  intros (seen & sorted & Hseen & Hsort & Hr).
  destruct (sorted_entries less_desc _ _ _ Hseen Hsort) as [Hperm Hsorted].
  destruct (makeslice_ok stringSize n) eqn:Hn; [|by rewrite first_n_Panics in Hr].
  rewrite first_n_Returns in Hr by done. injection Hr as ->. eauto.
Qed.

Lemma LeastAccessed_Returns c n keys :
  LeastAccessed c n (Returns keys) →
  makeslice_ok stringSize n = true ∧
  ∃ sorted, sorted ≡ₚ entries (accessCount c) ∧
            StronglySorted (in_order less_asc) sorted ∧
            keys = key <$> take (Z.to_nat n) sorted.
Proof.
  intros (seen & sorted & Hseen & Hsort & Hr).
  destruct (sorted_entries less_asc _ _ _ Hseen Hsort) as [Hperm Hsorted].
  destruct (makeslice_ok stringSize n) eqn:Hn; [|by rewrite first_n_Panics in Hr].
  rewrite first_n_Returns in Hr by done. injection Hr as ->. eauto.
Qed.

(** The keys cut from an arrangement of the count map's items. *)
Lemma listed_are_cache_keys c n sorted :
  wf c → sorted ≡ₚ entries (accessCount c) →
  NoDup (key <$> take (Z.to_nat n) sorted) ∧
  (∀ k, k ∈ key <$> take (Z.to_nat n) sorted → (Get c k).1.2 = true) ∧
  (Size c <= n → ∀ ks, Keys c (Returns ks) → key <$> take (Z.to_nat n) sorted ≡ₚ ks).
Proof.
  intros Hwf Hperm. split; [|split].
  - rewrite fmap_take. apply (sublist_NoDup _ (key <$> sorted)); [|apply sublist_take].
    rewrite Hperm, entries_keys. apply NoDup_fst_map_to_list.
  - intros k (item & -> & Hitem)%list_elem_of_fmap.
    apply Get_found, Hwf.
    apply elem_of_take in Hitem as (i & Hi & _).
    apply list_elem_of_lookup_2 in Hi. rewrite Hperm in Hi.
    apply elem_of_entries in Hi. eauto.
  - intros Hn ks [_ Hks]%Keys_Returns.
    assert (Hsize : size (data c) = size (accessCount c)).
    { rewrite <-(size_dom (data c)), <-(size_dom (accessCount c)). f_equal.
      apply set_eq. intros k. rewrite !elem_of_dom. apply Hwf. }
    rewrite take_ge.
    + rewrite Hperm, entries_keys, Hks. apply NoDup_Permutation.
      * apply NoDup_fst_map_to_list.
      * apply NoDup_fst_map_to_list.
      * intros k. rewrite !elem_of_map_keys. symmetry. apply Hwf.
    + rewrite Hperm, length_entries, <-Hsize. unfold Size in Hn. lia.
Qed.

Lemma reverse_sorted_desc sorted :
  StronglySorted (in_order less_desc) sorted →
  StronglySorted (in_order less_asc) (reverse sorted).
Proof.
  intros Hsorted%StronglySorted_Sorted%Sorted_reverse.
  apply Sorted_StronglySorted; [apply _|].
  revert Hsorted. generalize (reverse sorted). intros l.
  induction 1 as [|x l' Hl IH Hx]; constructor; [done|].
  destruct Hx as [|y l'' Hxy]; constructor.
  apply in_order_asc. by apply in_order_desc in Hxy.
Qed.

End RankingsAndKeys.

(** X11: a ranking returns exactly when its [n] is a capacity that [make]
    accepts, that is, [0 <= n] and [n] strings within the allocator's
    ceiling; for every other [n] it panics, whatever the cache holds. *)
Theorem rankings_return_exactly_when `{Runtime} (c : Cache) (n : Z) :
  ((∃ keys, MostAccessed c n (Returns keys)) ↔ 0 <= n ∧ stringSize * n <= maxAlloc) ∧
  ((∃ keys, LeastAccessed c n (Returns keys)) ↔ 0 <= n ∧ stringSize * n <= maxAlloc) ∧
  (MostAccessed c n Panics ↔ ¬ (0 <= n ∧ stringSize * n <= maxAlloc)) ∧
  (LeastAccessed c n Panics ↔ ¬ (0 <= n ∧ stringSize * n <= maxAlloc)).
Proof.
  rewrite <-makeslice_ok_spec.
  pose proof (MostAccessed_total c n) as Hmost.
  pose proof (LeastAccessed_total c n) as Hleast.
  destruct (makeslice_ok stringSize n) eqn:Hn.
  - rewrite first_n_Returns in Hmost, Hleast by done.
    split; [split; eauto|]. split; [split; eauto|]. split; split; try done.
    + by intros (keys & [=] & _)%MostAccessed_ranks.
    + by intros (keys & [=] & _)%LeastAccessed_ranks.
  - rewrite first_n_Panics in Hmost, Hleast by done.
    split; [split; [|done]|].
    { by intros [keys [=]%MostAccessed_Panics]. }
    split; [split; [|done]|].
    { by intros [keys [=]%LeastAccessed_Panics]. }
    split; split; try done.
Qed.

(** X13: in a state that a history reaches, a ranking lists keys of the
    cache and nothing else: no key twice, every listed key is one that
    [Get] finds, and when [n] is at least [Size] the ranking holds the
    same keys as [Keys], each once. *)
Theorem rankings_list_cache_keys `{Runtime} (c : Cache) (n : Z) (keys : list string) :
  reachable c →
  MostAccessed c n (Returns keys) ∨ LeastAccessed c n (Returns keys) →
  NoDup keys ∧
  (∀ k, k ∈ keys → (Get c k).1.2 = true) ∧
  (Size c <= n → ∀ ks, Keys c (Returns ks) → keys ≡ₚ ks).
Proof.
  intros Hwf%wf_reachable
    [(_ & sorted & Hperm & _ & ->)%MostAccessed_Returns
    |(_ & sorted & Hperm & _ & ->)%LeastAccessed_Returns];
    by apply listed_are_cache_keys.
Qed.

(** X14: the two rankings mirror each other: in a state that a history
    reaches and with [n] at least [Size], the access counts along
    [LeastAccessed(n)] are those along [MostAccessed(n)] read backwards,
    and when no two keys share a count the one list of keys is the other
    reversed. *)
Theorem rankings_mirror `{Runtime} (c : Cache) (n : Z) (most least : list string) :
  reachable c → Size c <= n →
  MostAccessed c n (Returns most) → LeastAccessed c n (Returns least) →
  (λ k, accessCount c !! k) <$> least = reverse ((λ k, accessCount c !! k) <$> most) ∧
  (distinct_counts (accessCount c) → least = reverse most).
Proof.
  intros Hwf%wf_reachable Hn
    (_ & sorted1 & Hperm1 & Hsorted1 & ->)%MostAccessed_Returns
    (_ & sorted2 & Hperm2 & Hsorted2 & ->)%LeastAccessed_Returns.
  assert (Hsize : size (data c) = size (accessCount c)).
  { rewrite <-(size_dom (data c)), <-(size_dom (accessCount c)). f_equal.
    apply set_eq. intros k. rewrite !elem_of_dom. apply Hwf. }
  assert (Hlen : ∀ sorted, sorted ≡ₚ entries (accessCount c) →
                           take (Z.to_nat n) sorted = sorted).
  { intros sorted Hperm. apply take_ge.
    rewrite Hperm, length_entries, <-Hsize. unfold Size in Hn. lia. }
  assert (Hperm1' : reverse sorted1 ≡ₚ entries (accessCount c))
    by by rewrite reverse_Permutation.
  pose proof (reverse_sorted_desc _ Hsorted1) as Hsorted1'.
  split.
  - rewrite !(listed_counts _ n) by done.
    rewrite <-!fmap_take, (Hlen _ Hperm1), (Hlen _ Hperm2), <-!fmap_reverse.
    by rewrite (sorted_counts less_asc (λ a b, a <= b) in_order_asc _ _ _
                  Hperm2 Hsorted2 Hperm1' Hsorted1').
  - intros Hdistinct. rewrite (Hlen _ Hperm1), (Hlen _ Hperm2), <-fmap_reverse.
    by rewrite (sorted_unique less_asc (λ a b, a <= b) in_order_asc _ _ _
                  Hdistinct Hperm2 Hsorted2 Hperm1' Hsorted1').
Qed.

Lemma rankings_within_capacity_witness :
  ∃ keys, @MostAccessed linux_amd64
            (run [OpSet "a" "1"; OpSet "b" "2"; OpGet "a"] NewCache) 1 (Returns keys).
Proof.
  apply (@rankings_within_capacity linux_amd64
           (run [OpSet "a" "1"; OpSet "b" "2"; OpGet "a"] NewCache) 1).
  reflexivity.
Defined.

Lemma rankings_list_cache_keys_witness : NoDup ["a"%string; "b"%string].
Proof.
  apply (@rankings_list_cache_keys linux_amd64
           (run [OpSet "a" "1"; OpSet "b" "2"; OpGet "a"] NewCache) 2 ["a"; "b"]).
  - by eexists.
  - left.
    pose proof (@MostAccessed_total linux_amd64
                  (run [OpSet "a" "1"; OpSet "b" "2"; OpGet "a"] NewCache) 2) as Hmost.
    vm_compute in Hmost. exact Hmost.
Defined.

Lemma rankings_mirror_witness :
  (λ k, accessCount (run [OpSet "a" "1"; OpSet "b" "2"; OpGet "a"] NewCache) !! k)
    <$> ["b"%string; "a"%string]
  = reverse
      ((λ k, accessCount (run [OpSet "a" "1"; OpSet "b" "2"; OpGet "a"] NewCache) !! k)
         <$> ["a"%string; "b"%string]).
Proof.
  apply (@rankings_mirror linux_amd64
           (run [OpSet "a" "1"; OpSet "b" "2"; OpGet "a"] NewCache) 2
           ["a"; "b"] ["b"; "a"]).
  - by eexists.
  - vm_compute. discriminate.
  - pose proof (@MostAccessed_total linux_amd64
                  (run [OpSet "a" "1"; OpSet "b" "2"; OpGet "a"] NewCache) 2) as Hmost.
    vm_compute in Hmost. exact Hmost.
  - pose proof (@LeastAccessed_total linux_amd64
                  (run [OpSet "a" "1"; OpSet "b" "2"; OpGet "a"] NewCache) 2) as Hleast.
    vm_compute in Hleast. exact Hleast.
Defined.

(** ** Counters between two [Clear] *)

Section Monotone.

Lemma tally_grows ops1 ops2 :
  Forall (λ o, o ≠ OpClear) ops2 →
  (tally ops1).1.2 <= (tally (ops1 ++ ops2)).1.2 ∧
  (tally ops1).2 <= (tally (ops1 ++ ops2)).2 ∧
  gets_since_clear ops1 <= gets_since_clear (ops1 ++ ops2).
Proof.
  induction ops2 as [|o ops2 IH] using rev_ind; intros Hops.
  - rewrite app_nil_r. lia.
  - apply Forall_app in Hops as [Hops Ho]. rewrite Forall_singleton in Ho.
    destruct (IH Hops) as (Hfound & Hlost & Hgets).
    rewrite app_assoc, tally_snoc, gets_since_clear_snoc.
    destruct (tally (ops1 ++ ops2)) as [[c found] lost]. simpl in *.
    destruct o as [k v|k|k|]; [| |simpl; lia|by destruct Ho].
    + simpl. lia.
    + unfold tally_step. destruct ((Get c k).1.2); simpl; lia.
Qed.

End Monotone.

(** X15: between two [Clear] the counters only grow: over operations
    without [Clear], and while no more than [MaxInt] calls of [Get] were
    made since the last [Clear], [hits] and [misses] are at least what they
    were; [Set] and [Delete] leave them as they are. *)
Theorem counters_grow (ops1 ops2 : list op) :
  Forall (λ o, o ≠ OpClear) ops2 →
  gets_since_clear (ops1 ++ ops2) <= GoInt.MaxInt →
  hits (run ops1 NewCache) <= hits (run (ops1 ++ ops2) NewCache) ∧
  misses (run ops1 NewCache) <= misses (run (ops1 ++ ops2) NewCache) ∧
  (Forall (λ o, is_Get o = false) ops2 →
   hits (run (ops1 ++ ops2) NewCache) = hits (run ops1 NewCache) ∧
   misses (run (ops1 ++ ops2) NewCache) = misses (run ops1 NewCache)).
Proof.
  intros Hops Hbound. destruct (tally_grows ops1 ops2 Hops) as (Hfound & Hlost & Hgets).
  destruct (counters_tally_exact_pair ops1) as [-> ->]; [lia|].
  destruct (counters_tally_exact_pair (ops1 ++ ops2)) as [-> ->]; [done|].
  split; [done|]. split; [done|].
  intros Hquiet. clear Hbound Hfound Hlost Hgets.
  induction ops2 as [|o ops2 IH] using rev_ind; [by rewrite app_nil_r|].
  apply Forall_app in Hops as [Hops Ho]. rewrite Forall_singleton in Ho.
  apply Forall_app in Hquiet as [Hquiet Ho']. rewrite Forall_singleton in Ho'.
  destruct (IH Hops Hquiet) as [<- <-].
  rewrite app_assoc, tally_snoc.
  destruct (tally (ops1 ++ ops2)) as [[c found] lost].
  by destruct o.
Qed.

Lemma counters_grow_witness :
  hits (run [OpSet "a" "1"; OpGet "a"] NewCache)
  <= hits (run ([OpSet "a" "1"; OpGet "a"] ++ [OpGet "a"; OpDelete "a"; OpGet "a"]) NewCache).
Proof.
  apply (counters_grow [OpSet "a" "1"; OpGet "a"] [OpGet "a"; OpDelete "a"; OpGet "a"]).
  - repeat constructor; discriminate.
  - vm_compute. discriminate.
Defined.
